(** * CAN comms reassembly engine (board/can_comms.h)

    A shallow embedding of [comms_can_read], [comms_can_write],
    [comms_can_reset] and [refresh_can_tx_slots_available], and the proofs
    of the properties the specification states about them.

    Conventions.
    - [uint8_t] is [Byte.byte]; [uint32_t] is a [Z] kept in [0, 2^32) by
      [uint32], which is written at every arithmetic operation of the source.
    - An array is a [list uint8_t]; [memcpy] into an array checks the
      capacity of the destination and the extent of the source, and yields a
      [Fault] where the C program would leave its object.
    - The two static buffers, the receive queue and the transmit pool are the
      fields of one record, [comms], which every entry point threads through.
    - What can_comms.h takes from other files (the payload-length table, the
      transmit pool, the burst sizes) is the interface [Collaborators].
*)

From Stdlib Require Import ZArith List Bool Lia.
From Stdlib Require Import Strings.Byte.
Import ListNotations.
Local Open Scope Z_scope.

(** ** Machine integers *)

Definition uint8_t := Byte.byte.

Definition byte_val (b : uint8_t) : Z := Z.of_N (Byte.to_N b).

Definition uint32 (z : Z) : Z := z mod 2 ^ 32.

(** [return pos;] in a function returning [int]. *)
Definition int_of_uint32 (z : Z) : Z := if z <? 2 ^ 31 then z else z - 2 ^ 32.

(** ** Faults and the result monad *)

Inductive fault : Type :=
| BufferOverrun     (* a store past the end of the destination array *)
| OutOfBoundsRead   (* a load past the end of the source array *)
| TableIndex        (* dlc_to_len indexed outside the table *)
| LoopFuel.         (* the bound on the iterations of a while loop *)

Inductive result (A : Type) : Type :=
| Ok (a : A)
| Fault (f : fault).

Arguments Ok {A} a.
Arguments Fault {A} f.

Definition bind {A B : Type} (c : result A) (k : A -> result B) : result B :=
  match c with
  | Ok a => k a
  | Fault f => Fault f
  end.

Notation "x <- c ;; k" := (bind c (fun x => k))
  (at level 61, c at next level, right associativity).

Notation "' pat <- c ;; k" := (bind c (fun x => match x with pat => k end))
  (at level 61, pat pattern, c at next level, right associativity).

(** ** Arrays *)

(** [memcpy(&dst[doff], &src[soff], n)]. *)
Definition memcpy (dst : list uint8_t) (doff : Z) (src : list uint8_t) (soff n : Z)
  : result (list uint8_t) :=
  if Z.of_nat (length dst) <? doff + n then Fault BufferOverrun
  else if Z.of_nat (length src) <? soff + n then Fault OutOfBoundsRead
  else Ok (firstn (Z.to_nat doff) dst
           ++ firstn (Z.to_nat n) (skipn (Z.to_nat soff) src)
           ++ skipn (Z.to_nat (doff + n)) dst).

(** [buf[i] = b]. *)
Definition store (buf : list uint8_t) (i : nat) (b : uint8_t) : list uint8_t :=
  firstn i buf ++ b :: skipn (S i) buf.

(** [memcpy(&buf[doff], &buf[soff], n)] inside one array.  [comms_can_read]
    moves the tail it still owes to the front of its buffer this way, and the
    two ranges overlap when less than half of the tail went out; the bytes
    are copied one at a time from the front, as the firmware's [memcpy]
    does. *)
Fixpoint copy_forward (buf : list uint8_t) (d s n : nat) : list uint8_t :=
  match n with
  | O => buf
  | S n' => copy_forward (store buf d (nth s buf x00)) (S d) (S s) n'
  end.

Definition memcpy_self (buf : list uint8_t) (doff soff n : Z) : result (list uint8_t) :=
  if Z.of_nat (length buf) <? doff + n then Fault BufferOverrun
  else if Z.of_nat (length buf) <? soff + n then Fault OutOfBoundsRead
  else Ok (copy_forward buf (Z.to_nat doff) (Z.to_nat soff) (Z.to_nat n)).

(** [src[i]]. *)
Definition load (src : list uint8_t) (i : Z) : result uint8_t :=
  match nth_error src (Z.to_nat i) with
  | Some b => Ok b
  | None => Fault OutOfBoundsRead
  end.

(** ** Packets *)

(** A [CANPacket_t] object is handled by the source as its bytes (it is the
    source or the destination of [memcpy] through a [uint8_t*] cast), so it is
    modelled as its object representation. *)
Definition CANPacket_t := list uint8_t.

(** Bytes 0..5 of the wire format are the header, the payload starts at
    byte 6 (layout comment at the head of can_comms.h). *)
Definition CANPACKET_HEAD_SIZE : Z := 6.

(** Modelled from the spec: [sizeof(CANPacket_t)], whose declaration is not
    part of the sources at hand; the largest frame is 70 bytes, rounded up to
    the 72 bytes the overflow buffers are sized for. *)
Definition CANPACKET_SIZE : Z := 72.

(** [uint8_t data[72]] of [asm_buffer]. *)
Definition ASM_BUFFER_SIZE : Z := 72.

(** [CANPacket_t to_push = {0};] *)
Definition zero_packet : CANPacket_t := repeat x00 (Z.to_nat CANPACKET_SIZE).

(** Byte 0 of a packet: DLC[7:4], bus[3:1], fd[0]. *)
Definition byte0 (p : CANPacket_t) : uint8_t := nth 0 p x00.

Definition data_len_code (p : CANPacket_t) : Z := Z.shiftr (byte_val (byte0 p)) 4.

Definition bus (p : CANPacket_t) : Z := Z.land (Z.shiftr (byte_val (byte0 p)) 1) 7.

(** ** State *)

Record asm_buffer : Type := mk_asm_buffer {
  ptr : Z;
  tail_size : Z;
  data : list uint8_t
}.

Inductive transport : Type := USB | SPI.

(** ** What the engine takes from the rest of the firmware

    The payload-length table, the transmit pool with [can_send], and the two
    burst sizes are declared outside can_comms.h; the engine is parametric in
    them. *)
Class Collaborators : Type := {
  dlc_to_len : list Z;
  tx_pool : Type;
  can_send : CANPacket_t -> Z -> bool -> tx_pool -> tx_pool;
  free_slots : tx_pool -> Z;
  MAX_CAN_MSGS_PER_USB_BULK_TRANSFER : Z;
  MAX_CAN_MSGS_PER_SPI_BULK_TRANSFER : Z
}.

(** The globals the entry points touch.  [sent] and [resumed] record the
    calls of [can_send] and of [can_tx_comms_resume_usb/spi], oldest first. *)
Record comms {E : Collaborators} : Type := mk_comms {
  can_read_buffer : asm_buffer;
  can_write_buffer : asm_buffer;
  can_rx_q : list CANPacket_t;
  can_tx_q : tx_pool;
  sent : list (CANPacket_t * Z);
  resumed : list transport
}.

Arguments mk_comms {E} _ _ _ _ _ _.

(** ** One firmware configuration, for the examples

    The CAN FD payload lengths, a transmit pool that is its number of free
    slots and loses one per submitted frame, and burst sizes 51 and 170. *)
Definition fd_collaborators : Collaborators := {|
  dlc_to_len := [0; 1; 2; 3; 4; 5; 6; 7; 8; 12; 16; 20; 24; 32; 48; 64];
  tx_pool := Z;
  can_send := fun _ _ _ free => Z.max 0 (free - 1);
  free_slots := fun free => free;
  MAX_CAN_MSGS_PER_USB_BULK_TRANSFER := 51;
  MAX_CAN_MSGS_PER_SPI_BULK_TRANSFER := 170
|}.

(** Both buffers as the static initialisers leave them, a receive queue and
    a number of free transmit slots. *)
Definition fd_state (q : list CANPacket_t) (free : Z) : @comms fd_collaborators :=
  @mk_comms fd_collaborators
    (mk_asm_buffer 0 0 (repeat x00 72)) (mk_asm_buffer 0 0 (repeat x00 72))
    q free [] [].

(** A state in mid-traffic: the read buffer owes the last five bytes of a
    frame, the write buffer holds the first three bytes of a frame of eight. *)
Definition fd_busy_state (q : list CANPacket_t) (free : Z) : @comms fd_collaborators :=
  @mk_comms fd_collaborators
    (mk_asm_buffer 5 0 ([xa3; xa4; xa5; xa6; xa7] ++ repeat x00 67))
    (mk_asm_buffer 3 5 ([x22; x01; x02] ++ repeat x77 69))
    q free [] [].

(** A classic frame with 2 payload bytes on bus 1, and an FD frame with 12. *)
Definition frame_a : list uint8_t :=
  [x22; x01; x02; x03; x04; x05; xa0; xa1].

Definition frame_b : list uint8_t :=
  [x93; x11; x12; x13; x14; x15;
   xb0; xb1; xb2; xb3; xb4; xb5; xb6; xb7; xb8; xb9; xba; xbb].

(** A queued packet object: the frame, then the unused rest of the struct. *)
Definition packet_of (f : list uint8_t) : CANPacket_t :=
  f ++ repeat xee (72 - length f).

(** The two frames as one stream, cut inside the header of the first, inside
    the payload of the second, and once more after a single byte. *)
Definition stream_ab : list uint8_t := frame_a ++ frame_b.

Definition chunks_ab : list (list uint8_t) :=
  [firstn 3 stream_ab; firstn 9 (skipn 3 stream_ab);
   firstn 1 (skipn 12 stream_ab); skipn 13 stream_ab].

(** A configuration whose table admits a payload longer than the envelope. *)
Definition oversized_collaborators : Collaborators := {|
  dlc_to_len := [0; 1; 2; 3; 4; 5; 6; 7; 8; 12; 16; 20; 24; 32; 48; 100];
  tx_pool := Z;
  can_send := fun _ _ _ free => Z.max 0 (free - 1);
  free_slots := fun free => free;
  MAX_CAN_MSGS_PER_USB_BULK_TRANSFER := 51;
  MAX_CAN_MSGS_PER_SPI_BULK_TRANSFER := 170
|}.



(** ** Board detection (board/stm32f4/board.h)

    [detect_board_type] drives and probes pins through [set_gpio_output],
    [detect_with_pull] and [set_gpio_alternate], which are declared outside
    board.h.  The pins are modelled by the history of the operations made on
    them, oldest first, and by what a probe reads after a given history. *)

Inductive gpio_port : Type := GPIOA | GPIOB | GPIOC.

Inductive pull_mode : Type := PULL_UP | PULL_DOWN.

Class Pins : Type := {
  hw_type_t : Type;
  HW_TYPE_DOS : hw_type_t;
  board_t : Type;
  board_dos : board_t;
  alt_function : Type;
  GPIO_AF0_SWJ : alt_function
}.

Inductive gpio_op {P : Pins} : Type :=
| SetOutput (port : gpio_port) (pin : Z) (enabled : bool)
| DetectWithPull (port : gpio_port) (pin : Z) (mode : pull_mode)
| SetAlternate (port : gpio_port) (pin : Z) (mode : alt_function).

(** The globals [hw_type] and [current_board], and the pins. *)
Record board_state {P : Pins} : Type := mk_board_state {
  hw_type : hw_type_t;
  current_board : board_t;
  gpio_log : list gpio_op
}.

Arguments mk_board_state {P} _ _ _.

Section Board.

Context {P : Pins}.

(** What [detect_with_pull] returns after the operations [log]. *)
Variable pin_level : list gpio_op -> gpio_port -> Z -> pull_mode -> bool.

Definition set_gpio_output (port : gpio_port) (pin : Z) (enabled : bool)
  (st : board_state) : board_state :=
  mk_board_state (hw_type st) (current_board st)
                 (gpio_log st ++ [SetOutput port pin enabled]).

Definition detect_with_pull (port : gpio_port) (pin : Z) (mode : pull_mode)
  (st : board_state) : bool * board_state :=
  (pin_level (gpio_log st) port pin mode,
   mk_board_state (hw_type st) (current_board st)
                  (gpio_log st ++ [DetectWithPull port pin mode])).

Definition set_gpio_alternate (port : gpio_port) (pin : Z) (mode : alt_function)
  (st : board_state) : board_state :=
  mk_board_state (hw_type st) (current_board st)
                 (gpio_log st ++ [SetAlternate port pin mode]).

(** [a || b] on probes: [b] is evaluated only when [a] is false. *)
Definition or_else (a b : board_state -> bool * board_state) (st : board_state)
  : bool * board_state :=
  let '(x, st1) := a st in
  if x then (true, st1) else b st1.

(** [detect_board_type()] *)
Definition detect_board_type (st : board_state) : board_state :=
  let st := set_gpio_output GPIOC 14 true st in
  let st := set_gpio_output GPIOC 5 true st in
  let '(b1, st) := detect_with_pull GPIOB 1 PULL_UP st in
  let '(dos, st) :=
    if negb b1 then
      let '(b7, st) := detect_with_pull GPIOB 7 PULL_UP st in (negb b7, st)
    else (false, st) in
  let st :=
    if dos then
      mk_board_state HW_TYPE_DOS board_dos (gpio_log st)
    else
      let '(white, st) :=
        or_else (detect_with_pull GPIOA 4 PULL_DOWN)
          (or_else (detect_with_pull GPIOA 5 PULL_DOWN)
             (or_else (detect_with_pull GPIOA 6 PULL_DOWN)
                (detect_with_pull GPIOA 7 PULL_DOWN))) st in
      if white then st
      else
        let '(grey, st) := detect_with_pull GPIOA 13 PULL_DOWN st in
        if grey then st
        else
          let '(b15, st) := detect_with_pull GPIOB 15 PULL_UP st in
          if negb b15 then st else st in
  set_gpio_alternate GPIOA 13 GPIO_AF0_SWJ st.

(** The probes among the operations of a history. *)
Definition is_probe (op : gpio_op) : bool :=
  match op with DetectWithPull _ _ _ => true | _ => false end.

End Board.

(** Pins for the examples: two hardware types, two boards, one alternate
    function. *)
Definition example_pins : Pins := {|
  hw_type_t := bool;
  HW_TYPE_DOS := true;
  board_t := bool;
  board_dos := true;
  alt_function := unit;
  GPIO_AF0_SWJ := tt
|}.

Section Engine.

Context {E : Collaborators}.

Definition set_read_buffer (st : comms) (b : asm_buffer) : comms :=
  mk_comms b (can_write_buffer st) (can_rx_q st) (can_tx_q st) (sent st) (resumed st).

Definition set_write_buffer (st : comms) (b : asm_buffer) : comms :=
  mk_comms (can_read_buffer st) b (can_rx_q st) (can_tx_q st) (sent st) (resumed st).

Definition set_rx_q (st : comms) (q : list CANPacket_t) : comms :=
  mk_comms (can_read_buffer st) (can_write_buffer st) q (can_tx_q st) (sent st) (resumed st).

(** [dlc_to_len[i]] *)
Definition dlc_lookup (i : Z) : result Z :=
  match nth_error dlc_to_len (Z.to_nat i) with
  | Some n => Ok n
  | None => Fault TableIndex
  end.

(** [can_send(&to_push, to_push.bus, false);] *)
Definition do_can_send (to_push : CANPacket_t) (st : comms) : comms :=
  mk_comms (can_read_buffer st) (can_write_buffer st) (can_rx_q st)
           (can_send to_push (bus to_push) false (can_tx_q st))
           (sent st ++ [(to_push, bus to_push)]) (resumed st).

(** Modelled from the spec: [can_tx_check_min_slots_free], which is not part
    of the sources at hand; it "checks whether the transmit slot pool has at
    least the reservation size" asked for. *)
Definition can_tx_check_min_slots_free (min : Z) (pool : tx_pool) : bool :=
  min <=? free_slots pool.

(** [can_tx_comms_resume_usb();] and [can_tx_comms_resume_spi();] *)
Definition signal (t : transport) (st : comms) : comms :=
  mk_comms (can_read_buffer st) (can_write_buffer st) (can_rx_q st)
           (can_tx_q st) (sent st) (resumed st ++ [t]).

(** [refresh_can_tx_slots_available()] *)
Definition refresh_can_tx_slots_available (st : comms) : comms :=
  let st1 :=
    if can_tx_check_min_slots_free MAX_CAN_MSGS_PER_USB_BULK_TRANSFER (can_tx_q st)
    then signal USB st else st in
  if can_tx_check_min_slots_free MAX_CAN_MSGS_PER_SPI_BULK_TRANSFER (can_tx_q st1)
  then signal SPI st1 else st1.

(** *** comms_can_read *)

(** The loop [while ((pos < max_len) && can_pop(&can_rx_q, &can_packet))];
    [can_pop] takes the oldest packet of the queue, so the loop recurses on
    the queue. *)
Fixpoint read_loop (q : list CANPacket_t) (rb : asm_buffer) (out : list uint8_t)
  (pos max_len : Z) : result (list CANPacket_t * asm_buffer * list uint8_t * Z) :=
  if pos <? max_len then
    match q with
    | [] => Ok (q, rb, out, pos)
    | can_packet :: q' =>
      n <- dlc_lookup (data_len_code can_packet) ;;
      let pckt_len := uint32 (CANPACKET_HEAD_SIZE + n) in
      if uint32 (pos + pckt_len) <=? max_len then
        out' <- memcpy out pos can_packet 0 pckt_len ;;
        read_loop q' rb out' (uint32 (pos + pckt_len)) max_len
      else
        out' <- memcpy out pos can_packet 0 (uint32 (max_len - pos)) ;;
        let ptr' := uint32 (ptr rb + uint32 (pckt_len - uint32 (max_len - pos))) in
        d <- memcpy (data rb) 0 can_packet (uint32 (max_len - pos)) ptr' ;;
        read_loop q' (mk_asm_buffer ptr' (tail_size rb) d) out' max_len max_len
    end
  else Ok (q, rb, out, pos).

(** [comms_can_read(data, max_len)]: the new state, the destination after the
    call and the value returned.  [out] is the caller's array [data]. *)
Definition comms_can_read (st : comms) (out : list uint8_t) (max_len : Z)
  : result (comms * list uint8_t * Z) :=
  let pos := 0 in
  let rb := can_read_buffer st in
  '(rb1, out1, pos1) <-
    (if 0 <? ptr rb then
       let overflow_len := Z.min (uint32 (max_len - pos)) (ptr rb) in
       out' <- memcpy out pos (data rb) 0 overflow_len ;;
       d <- memcpy_self (data rb) 0 overflow_len (uint32 (ptr rb - overflow_len)) ;;
       Ok (mk_asm_buffer (uint32 (ptr rb - overflow_len)) (tail_size rb) d,
           out', uint32 (pos + overflow_len))
     else Ok (rb, out, pos)) ;;
  if ptr rb1 =? 0 then
    '(q', rb2, out2, pos2) <- read_loop (can_rx_q st) rb1 out1 pos1 max_len ;;
    Ok (set_rx_q (set_read_buffer st rb2) q', out2, int_of_uint32 pos2)
  else Ok (set_read_buffer st rb1, out1, int_of_uint32 pos1).

(** *** comms_can_write *)

(** The loop [while (pos < len)].  [src] is the caller's array [data]. *)
Fixpoint write_loop (fuel : nat) (st : comms) (src : list uint8_t) (pos len : Z)
  : result comms :=
  if pos <? len then
    match fuel with
    | O => Fault LoopFuel
    | S fuel' =>
      b <- load src pos ;;
      n <- dlc_lookup (Z.shiftr (byte_val b) 4) ;;
      let pckt_len := uint32 (CANPACKET_HEAD_SIZE + n) in
      if uint32 (pos + pckt_len) <=? len then
        to_push <- memcpy zero_packet 0 src pos pckt_len ;;
        write_loop fuel' (do_can_send to_push st) src (uint32 (pos + pckt_len)) len
      else
        d <- memcpy (data (can_write_buffer st)) 0 src pos (uint32 (len - pos)) ;;
        let ptr' := uint32 (len - pos) in
        let wb := mk_asm_buffer ptr' (uint32 (pckt_len - ptr')) d in
        write_loop fuel' (set_write_buffer st wb) src (uint32 (pos + ptr')) len
    end
  else Ok st.

(** [comms_can_write(data, len)].  Every iteration of the loop but the last
    consumes a whole frame, so [len + 1] iterations are never exceeded while
    [pos] does not wrap. *)
Definition comms_can_write (st : comms) (src : list uint8_t) (len : Z) : result comms :=
  let pos := 0 in
  let wb := can_write_buffer st in
  '(st1, pos1) <-
    (if negb (ptr wb =? 0) then
       if tail_size wb <=? uint32 (len - pos) then
         d <- memcpy (data wb) (ptr wb) src pos (tail_size wb) ;;
         let ptr' := uint32 (ptr wb + tail_size wb) in
         to_push <- memcpy zero_packet 0 d 0 ptr' ;;
         let st' := do_can_send to_push (set_write_buffer st (mk_asm_buffer ptr' (tail_size wb) d)) in
         Ok (set_write_buffer st' (mk_asm_buffer 0 0 d), uint32 (pos + tail_size wb))
       else
         let data_size := uint32 (len - pos) in
         d <- memcpy (data wb) (ptr wb) src pos data_size ;;
         Ok (set_write_buffer st
               (mk_asm_buffer (uint32 (ptr wb + data_size))
                              (uint32 (tail_size wb - data_size)) d),
             uint32 (pos + data_size))
     else Ok (st, pos)) ;;
  st2 <- write_loop (S (Z.to_nat len)) st1 src pos1 len ;;
  Ok (refresh_can_tx_slots_available st2).

(** *** comms_can_reset *)

Definition comms_can_reset (st : comms) : comms :=
  let wb := can_write_buffer st in
  let rb := can_read_buffer st in
  mk_comms (mk_asm_buffer 0 0 (data rb)) (mk_asm_buffer 0 0 (data wb))
           (can_rx_q st) (can_tx_q st) (sent st) (resumed st).

(** ** The vocabulary of the specification *)

(** Payload length selected by the length-class code of a first byte, and
    the length of the whole frame on the wire. *)
Definition payload_len (b : uint8_t) : Z :=
  nth (Z.to_nat (Z.shiftr (byte_val b) 4)) dlc_to_len 0.

Definition frame_len (b : uint8_t) : Z := CANPACKET_HEAD_SIZE + payload_len b.

(** A complete frame on the wire; a nonempty proper prefix of one; what may
    be left at the end of a stream of frames. *)
Definition wire_frame (f : list uint8_t) : Prop :=
  Z.of_nat (length f) = frame_len (byte0 f).

Definition partial_frame (r : list uint8_t) : Prop :=
  r <> [] /\ Z.of_nat (length r) < frame_len (byte0 r).

Definition remainder (r : list uint8_t) : Prop := r = [] \/ partial_frame r.

(** The object [to_push] after [= {0}] and the [memcpy] of the frame [f], and
    the arguments [can_send] gets for it. *)
Definition to_packet (f : list uint8_t) : CANPacket_t :=
  f ++ skipn (length f) zero_packet.

Definition submitted (f : list uint8_t) : CANPacket_t * Z :=
  (to_packet f, bus (to_packet f)).

(** The transmit pool after the frames [fs] were submitted in order. *)
Definition pool_after (fs : list (list uint8_t)) (pool : tx_pool) : tx_pool :=
  fold_left (fun pl f => can_send (to_packet f) (bus (to_packet f)) false pl) fs pool.

(** The serialization of a queued packet: the first [pckt_len] bytes of the
    object. *)
Definition wire (p : CANPacket_t) : list uint8_t :=
  firstn (Z.to_nat (frame_len (byte0 p))) p.

Definition serialize (q : list CANPacket_t) : list uint8_t := concat (map wire q).

(** The bytes the read side still owes the host: the tail kept in the
    overflow buffer, then the queue. *)
Definition owed (st : comms) : list uint8_t :=
  firstn (Z.to_nat (ptr (can_read_buffer st))) (data (can_read_buffer st))
  ++ serialize (can_rx_q st).

(** *** Well-formed states and calls *)

Definition INT_MAX : Z := 2 ^ 31 - 1.

Definition asm_ok (b : asm_buffer) : Prop :=
  Z.of_nat (length (data b)) = ASM_BUFFER_SIZE
  /\ 0 <= ptr b < 2 ^ 32 /\ 0 <= tail_size b < 2 ^ 32.

(** The write-side invariant of the specification. *)
Definition write_inv (wb : asm_buffer) : Prop :=
  0 < ptr wb -> ptr wb + tail_size wb = frame_len (byte0 (data wb)).

Definition read_inv (rb : asm_buffer) : Prop := ptr rb <= ASM_BUFFER_SIZE.

Definition queue_ok (q : list CANPacket_t) : Prop :=
  Forall (fun p => Z.of_nat (length p) = CANPACKET_SIZE) q.

Definition state_ok (st : comms) : Prop :=
  asm_ok (can_read_buffer st) /\ read_inv (can_read_buffer st)
  /\ asm_ok (can_write_buffer st) /\ write_inv (can_write_buffer st)
  /\ queue_ok (can_rx_q st).

(** The write-side buffer holds exactly the bytes [r] of a frame in
    assembly. *)
Definition holds_partial (wb : asm_buffer) (r : list uint8_t) : Prop :=
  ptr wb = Z.of_nat (length r)
  /\ firstn (length r) (data wb) = r
  /\ (r <> [] -> ptr wb + tail_size wb = frame_len (byte0 r)).

(** The resume calls of one admission check on the pool [pool]. *)
Definition signals (pool : tx_pool) : list transport :=
  (if MAX_CAN_MSGS_PER_USB_BULK_TRANSFER <=? free_slots pool then [USB] else [])
  ++ (if MAX_CAN_MSGS_PER_SPI_BULK_TRANSFER <=? free_slots pool then [SPI] else []).

(** What one write of [src] does to the state [st]: the bytes in assembly
    followed by [src] are the complete frames [fs], which are submitted, and
    the beginning [r] of one more, which is kept. *)
Definition write_post (st : comms) (src : list uint8_t) (st' : comms)
  (fs : list (list uint8_t)) (r : list uint8_t) : Prop :=
  firstn (Z.to_nat (ptr (can_write_buffer st))) (data (can_write_buffer st)) ++ src
  = concat fs ++ r
  /\ Forall wire_frame fs /\ remainder r
  /\ can_read_buffer st' = can_read_buffer st
  /\ can_rx_q st' = can_rx_q st
  /\ sent st' = sent st ++ map submitted fs
  /\ can_tx_q st' = pool_after fs (can_tx_q st)
  /\ resumed st' = resumed st ++ signals (can_tx_q st')
  /\ asm_ok (can_write_buffer st')
  /\ holds_partial (can_write_buffer st') r.

(** What one read into [out] does to the state [st]: the host gets the next
    [n] bytes owed, at the front of its array, and the rest stays owed. *)
Definition read_post (st : comms) (out : list uint8_t) (max_len : Z)
  (st' : comms) (out' : list uint8_t) (n : Z) : Prop :=
  n = Z.min max_len (Z.of_nat (length (owed st)))
  /\ out' = firstn (Z.to_nat n) (owed st) ++ skipn (Z.to_nat n) out
  /\ owed st' = skipn (Z.to_nat n) (owed st)
  /\ asm_ok (can_read_buffer st')
  /\ read_inv (can_read_buffer st')
  /\ queue_ok (can_rx_q st')
  /\ can_write_buffer st' = can_write_buffer st
  /\ can_tx_q st' = can_tx_q st
  /\ sent st' = sent st
  /\ resumed st' = resumed st.

(** The calls the transport layer makes, and the receive interrupt, which
    puts a packet at the back of the queue. *)
Inductive call : Type :=
| Read (out : list uint8_t) (max_len : Z)
| Write (src : list uint8_t) (len : Z)
| Reset
| Receive (p : CANPacket_t).

Definition step (st : comms) (c : call) : result comms :=
  match c with
  | Read out max_len => '(st', _, _) <- comms_can_read st out max_len ;; Ok st'
  | Write src len => comms_can_write st src len
  | Reset => Ok (comms_can_reset st)
  | Receive p => Ok (set_rx_q st (can_rx_q st ++ [p]))
  end.

Fixpoint run (st : comms) (cs : list call) : result comms :=
  match cs with
  | [] => Ok st
  | c :: cs' => st' <- step st c ;; run st' cs'
  end.

(** A read gets an array of at least [max_len] bytes, a write an array of
    [len] bytes; lengths are those of a 32-bit address space. *)
Definition call_ok (c : call) : Prop :=
  match c with
  | Read out max_len => 0 <= max_len <= INT_MAX /\ max_len <= Z.of_nat (length out)
  | Write src len => len = Z.of_nat (length src) /\ len <= INT_MAX
  | Reset => True
  | Receive p => Z.of_nat (length p) = CANPACKET_SIZE
  end.

(** Successive writes of the chunks of a stream. *)
Fixpoint write_all (st : comms) (chunks : list (list uint8_t)) : result comms :=
  match chunks with
  | [] => Ok st
  | c :: cs => st' <- comms_can_write st c (Z.of_nat (length c)) ;; write_all st' cs
  end.

(** Successive reads into the given arrays, each offered whole; the chunks
    returned are the first [n] bytes of each array, [n] the value returned. *)
Fixpoint read_all (st : comms) (outs : list (list uint8_t))
  : result (comms * list (list uint8_t)) :=
  match outs with
  | [] => Ok (st, [])
  | out :: os =>
    '(st1, out', n) <- comms_can_read st out (Z.of_nat (length out)) ;;
    '(st2, rs) <- read_all st1 os ;;
    Ok (st2, firstn (Z.to_nat n) out' :: rs)
  end.

(** The packets the receive interrupt brings during a sequence of calls. *)
Definition received (cs : list call) : list CANPacket_t :=
  flat_map (fun c => match c with Receive p => [p] | _ => [] end) cs.

Definition is_reset (c : call) : bool :=
  match c with Reset => true | _ => false end.

(** A call and the bytes it hands to the host. *)
Definition step_out (st : comms) (c : call) : result (comms * list uint8_t) :=
  match c with
  | Read out max_len =>
    '(st', out', n) <- comms_can_read st out max_len ;;
    Ok (st', firstn (Z.to_nat n) out')
  | _ => st' <- step st c ;; Ok (st', [])
  end.

Fixpoint run_out (st : comms) (cs : list call) : result (comms * list uint8_t) :=
  match cs with
  | [] => Ok (st, [])
  | c :: cs' =>
    '(st1, bytes) <- step_out st c ;;
    '(st2, more) <- run_out st1 cs' ;;
    Ok (st2, bytes ++ more)
  end.

(** The write buffer is empty or holds the beginning of a frame that still
    misses at least one byte. *)
Definition assembling (wb : asm_buffer) : Prop :=
  0 < ptr wb ->
  1 <= tail_size wb /\ ptr wb + tail_size wb = frame_len (byte0 (data wb)).

(** The bytes in assembly. *)
Definition buffered (wb : asm_buffer) : list uint8_t :=
  firstn (Z.to_nat (ptr wb)) (data wb).


(** Total capacity of a list of destination arrays. *)
Definition capacity (outs : list (list uint8_t)) : Z :=
  Z.of_nat (length (concat outs)).

(** ** Assumptions on the table *)

Hypothesis dlc_size : length dlc_to_len = 16%nat.
Hypothesis dlc_envelope : Forall (fun n => 0 <= n <= 64) dlc_to_len.

(** ** Machine arithmetic *)

Lemma uint32_small (z : Z) : 0 <= z < 2 ^ 32 -> uint32 z = z.
Proof. intros H. unfold uint32. now apply Z.mod_small. Qed.

Lemma uint32_range (z : Z) : 0 <= uint32 z < 2 ^ 32.
Proof. unfold uint32. apply Z.mod_pos_bound. lia. Qed.

Lemma int_of_uint32_small (z : Z) : 0 <= z <= INT_MAX -> int_of_uint32 z = z.
Proof.
  unfold INT_MAX, int_of_uint32. intros H.
  destruct (Z.ltb_spec z (2 ^ 31)); lia.
Qed.

Lemma byte_val_range (b : uint8_t) : 0 <= byte_val b < 256.
Proof. unfold byte_val. pose proof (Byte.to_N_bounded b). lia. Qed.

(** The upper four bits of a byte are a number below 16. *)
Lemma code_range (b : uint8_t) : 0 <= Z.shiftr (byte_val b) 4 < 16.
Proof.
  pose proof (byte_val_range b) as Hb.
  rewrite Z.shiftr_div_pow2 by lia. change (2 ^ 4) with 16.
  split; [apply Z.div_pos; lia | apply Z.div_lt_upper_bound; lia].
Qed.

(** ** The table *)

Lemma dlc_lookup_code (b : uint8_t) :
  dlc_lookup (Z.shiftr (byte_val b) 4) = Ok (payload_len b).
Proof using dlc_size.
  unfold dlc_lookup, payload_len.
  destruct (nth_error dlc_to_len (Z.to_nat (Z.shiftr (byte_val b) 4))) as [n|] eqn:Hn.
  - f_equal. symmetry. now apply nth_error_nth.
  - apply nth_error_None in Hn. pose proof (code_range b). lia.
Qed.

Lemma payload_len_range (b : uint8_t) : 0 <= payload_len b <= 64.
Proof using dlc_size dlc_envelope.
  unfold payload_len. pose proof (code_range b) as Hc.
  rewrite Forall_forall in dlc_envelope. apply dlc_envelope.
  apply nth_In. lia.
Qed.

Lemma frame_len_range (b : uint8_t) : 6 <= frame_len b <= 70.
Proof using dlc_size dlc_envelope.
  unfold frame_len, CANPACKET_HEAD_SIZE. pose proof (payload_len_range b). lia.
Qed.

Lemma pckt_len_eq (b : uint8_t) : uint32 (CANPACKET_HEAD_SIZE + payload_len b) = frame_len b.
Proof using dlc_size dlc_envelope.
  apply uint32_small. pose proof (frame_len_range b). unfold frame_len in *. lia.
Qed.

(** ** Arrays *)

Lemma memcpy_ok (dst : list uint8_t) (doff : Z) (src : list uint8_t) (soff n : Z) :
  0 <= doff -> 0 <= soff -> 0 <= n ->
  doff + n <= Z.of_nat (length dst) -> soff + n <= Z.of_nat (length src) ->
  memcpy dst doff src soff n
  = Ok (firstn (Z.to_nat doff) dst
        ++ firstn (Z.to_nat n) (skipn (Z.to_nat soff) src)
        ++ skipn (Z.to_nat (doff + n)) dst).
Proof.
  intros Hd Hs Hn Hdst Hsrc. unfold memcpy.
  destruct (Z.ltb_spec (Z.of_nat (length dst)) (doff + n)); [lia|].
  destruct (Z.ltb_spec (Z.of_nat (length src)) (soff + n)); [lia|].
  reflexivity.
Qed.

Lemma memcpy_front (dst src : list uint8_t) (soff n : Z) :
  0 <= soff -> 0 <= n ->
  n <= Z.of_nat (length dst) -> soff + n <= Z.of_nat (length src) ->
  memcpy dst 0 src soff n
  = Ok (firstn (Z.to_nat n) (skipn (Z.to_nat soff) src) ++ skipn (Z.to_nat n) dst).
Proof.
  intros Hs Hn Hdst Hsrc. rewrite memcpy_ok by lia. reflexivity.
Qed.

Lemma firstn_prefix {A : Type} (a c : list A) (n : nat) :
  n = length a -> firstn n (a ++ c) = a.
Proof.
  intros ->. rewrite firstn_app, firstn_all, Nat.sub_diag. simpl. apply app_nil_r.
Qed.

Lemma skipn_prefix {A : Type} (a c : list A) (n m : nat) :
  m = (length a + n)%nat -> skipn m (a ++ c) = skipn n c.
Proof.
  intros ->. rewrite skipn_app, skipn_all2 by lia.
  simpl. f_equal. lia.
Qed.

Lemma skipn_cons_nth (buf : list uint8_t) (s : nat) :
  (s < length buf)%nat -> skipn s buf = nth s buf x00 :: skipn (S s) buf.
Proof.
  revert buf. induction s as [|s IH]; intros [|x l] H; cbn [length] in H; try lia.
  - reflexivity.
  - cbn [skipn nth]. apply IH. lia.
Qed.

(** Copied from the front, a range that moves towards the front arrives
    intact even where it overlaps its destination. *)
Lemma copy_forward_spec (n : nat) :
  forall (buf : list uint8_t) (d s : nat),
  (d <= s)%nat -> (s + n <= length buf)%nat ->
  copy_forward buf d s n
  = firstn d buf ++ firstn n (skipn s buf) ++ skipn (d + n) buf.
Proof.
  induction n as [|n IH]; intros buf d s Hds Hlen; cbn [copy_forward].
  - cbn [firstn app]. rewrite Nat.add_0_r. symmetry. apply firstn_skipn.
  - assert (Hst : length (store buf d (nth s buf x00)) = length buf).
    { unfold store. rewrite length_app, length_firstn. cbn [length].
      rewrite length_skipn. lia. }
    rewrite IH by lia. unfold store.
    assert (Hd : length (firstn d buf) = d) by (rewrite length_firstn; lia).
    (* the part already written *)
    replace (firstn (S d) (firstn d buf ++ nth s buf x00 :: skipn (S d) buf))
      with (firstn d buf ++ [nth s buf x00]).
    2:{ change (firstn d buf ++ nth s buf x00 :: skipn (S d) buf)
          with (firstn d buf ++ [nth s buf x00] ++ skipn (S d) buf).
        rewrite app_assoc. symmetry. apply firstn_prefix.
        rewrite length_app. cbn [length]. lia. }
    (* the part still to read lies behind the byte just written *)
    replace (skipn (S s) (firstn d buf ++ nth s buf x00 :: skipn (S d) buf))
      with (skipn (S s) buf).
    2:{ change (firstn d buf ++ nth s buf x00 :: skipn (S d) buf)
          with (firstn d buf ++ [nth s buf x00] ++ skipn (S d) buf).
        rewrite app_assoc.
        rewrite (skipn_prefix _ _ (s - d)%nat) by (rewrite length_app; cbn [length]; lia).
        rewrite skipn_skipn. f_equal. lia. }
    replace (skipn (S d + n) (firstn d buf ++ nth s buf x00 :: skipn (S d) buf))
      with (skipn (d + S n) buf).
    2:{ change (firstn d buf ++ nth s buf x00 :: skipn (S d) buf)
          with (firstn d buf ++ [nth s buf x00] ++ skipn (S d) buf).
        rewrite app_assoc.
        rewrite (skipn_prefix _ _ n) by (rewrite length_app; cbn [length]; lia).
        rewrite skipn_skipn. f_equal. lia. }
    rewrite <- app_assoc. f_equal. cbn [app].
    rewrite (skipn_cons_nth buf s) by lia. reflexivity.
Qed.

Lemma memcpy_self_front (buf : list uint8_t) (soff n : Z) :
  0 <= soff -> 0 <= n -> soff + n <= Z.of_nat (length buf) ->
  memcpy_self buf 0 soff n
  = Ok (firstn (Z.to_nat n) (skipn (Z.to_nat soff) buf) ++ skipn (Z.to_nat n) buf).
Proof.
  intros Hs Hn Hlen. unfold memcpy_self.
  destruct (Z.ltb_spec (Z.of_nat (length buf)) (0 + n)); [lia|].
  destruct (Z.ltb_spec (Z.of_nat (length buf)) (soff + n)); [lia|].
  rewrite copy_forward_spec by lia. reflexivity.
Qed.


Lemma memcpy_length (dst : list uint8_t) (doff : Z) (src : list uint8_t) (soff n : Z)
  (d : list uint8_t) :
  0 <= doff -> 0 <= soff -> 0 <= n ->
  memcpy dst doff src soff n = Ok d -> length d = length dst.
Proof.
  intros Hd Hs Hn. unfold memcpy.
  destruct (Z.ltb_spec (Z.of_nat (length dst)) (doff + n)); [discriminate|].
  destruct (Z.ltb_spec (Z.of_nat (length src)) (soff + n)); [discriminate|].
  intros [= <-].
  rewrite !length_app, !length_firstn, !length_skipn. lia.
Qed.

Lemma load_skipn (src : list uint8_t) (pos : Z) :
  0 <= pos < Z.of_nat (length src) ->
  load src pos = Ok (byte0 (skipn (Z.to_nat pos) src)).
Proof.
  intros H. unfold load, byte0.
  destruct (nth_error src (Z.to_nat pos)) as [b|] eqn:Hb.
  - f_equal. rewrite <- (firstn_skipn (Z.to_nat pos) src) in Hb.
    rewrite nth_error_app2 in Hb by (rewrite length_firstn; lia).
    rewrite length_firstn in Hb.
    replace (Z.to_nat pos - Nat.min (Z.to_nat pos) (length src))%nat with 0%nat in Hb by lia.
    destruct (skipn (Z.to_nat pos) src); [discriminate|]. now inversion Hb.
  - apply nth_error_None in Hb. lia.
Qed.

(** ** Streams of frames *)

Lemma wire_frame_nonempty (f : list uint8_t) : wire_frame f -> f <> [].
Proof using dlc_size dlc_envelope.
  unfold wire_frame. intros H ->. pose proof (frame_len_range (byte0 [])).
  simpl in H. lia.
Qed.

Lemma byte0_app (a b : list uint8_t) : a <> [] -> byte0 (a ++ b) = byte0 a.
Proof. destruct a; [congruence | reflexivity]. Qed.

Lemma app_same_length {A : Type} (a b x y : list A) :
  length a = length b -> a ++ x = b ++ y -> a = b /\ x = y.
Proof.
  revert b. induction a as [|h a IH]; intros [|k b] Hl Heq; simpl in *; try discriminate.
  - now split.
  - injection Heq as -> Heq. destruct (IH b) as [-> ->]; [lia | assumption | now split].
Qed.

(** Every byte stream is a sequence of complete frames followed by what is
    left: nothing, or the beginning of one more frame. *)
Lemma frames_exist (s : list uint8_t) :
  exists fs r, s = concat fs ++ r /\ Forall wire_frame fs /\ remainder r.
Proof using dlc_size dlc_envelope.
  remember (length s) as k eqn:Hk. revert s Hk.
  induction k as [k IH] using lt_wf_ind. intros s Hk.
  destruct s as [|b s'].
  - exists [], []. repeat split; [constructor | now left].
  - destruct (Z_lt_le_dec (Z.of_nat (length (b :: s'))) (frame_len b)) as [Hlt|Hge].
    + exists [], (b :: s'). repeat split; [constructor | right; split; [discriminate | exact Hlt]].
    + pose proof (frame_len_range b) as Hr.
      set (n := Z.to_nat (frame_len b)).
      destruct (IH (length (skipn n (b :: s')))) with (s := skipn n (b :: s'))
        as (fs & r & Heq & Hfs & Hrem); [rewrite length_skipn; subst k n; cbn [length]; lia | reflexivity |].
      exists (firstn n (b :: s') :: fs), r. repeat split; [| | exact Hrem].
      * simpl. rewrite <- app_assoc, <- Heq. now rewrite firstn_skipn.
      * constructor; [| exact Hfs]. unfold wire_frame.
        rewrite length_firstn. subst n.
        replace (byte0 (firstn (Z.to_nat (frame_len b)) (b :: s'))) with b.
        -- lia.
        -- destruct (Z.to_nat (frame_len b)) eqn:Hz; [lia | reflexivity].
Qed.

(** A stream of frames is read in one way only. *)
Lemma frames_unique (fs : list (list uint8_t)) :
  forall gs r,
  Forall wire_frame fs -> Forall wire_frame gs -> remainder r ->
  concat fs = concat gs ++ r -> fs = gs /\ r = [].
Proof using dlc_size dlc_envelope.
  induction fs as [|f fs IH]; intros gs r Hfs Hgs Hr Heq.
  - simpl in Heq. symmetry in Heq. apply app_eq_nil in Heq as [Hc ->].
    split; [| reflexivity].
    destruct gs as [|g gs]; [reflexivity|]. exfalso.
    inversion Hgs as [|? ? Hg _]; subst. apply wire_frame_nonempty in Hg.
    simpl in Hc. apply app_eq_nil in Hc as [? _]. contradiction.
  - inversion Hfs as [|? ? Hf Hfs']; subst.
    pose proof (wire_frame_nonempty _ Hf) as Hfne.
    destruct gs as [|g gs].
    + exfalso. simpl in Heq. destruct Hr as [-> | [Hne Hlt]].
      * apply app_eq_nil in Heq as [? _]. contradiction.
      * rewrite <- Heq in Hlt. rewrite byte0_app in Hlt by assumption.
        rewrite length_app in Hlt. unfold wire_frame in Hf. lia.
    + inversion Hgs as [|? ? Hg Hgs']; subst.
      pose proof (wire_frame_nonempty _ Hg) as Hgne.
      simpl in Heq. rewrite <- app_assoc in Heq.
      assert (Hb : byte0 f = byte0 g).
      { rewrite <- (byte0_app f (concat fs)), Heq by assumption. now apply byte0_app. }
      apply app_same_length in Heq as [-> Heq].
      * destruct (IH gs r Hfs' Hgs' Hr Heq) as [-> ->]. now split.
      * unfold wire_frame in Hf, Hg. rewrite Hb in Hf. lia.
Qed.

Lemma frames_count (fs : list (list uint8_t)) :
  Forall wire_frame fs -> (length fs <= length (concat fs))%nat.
Proof using dlc_size dlc_envelope.
  induction 1 as [|f fs Hf _ IH]; simpl; [lia|].
  rewrite length_app. unfold wire_frame in Hf.
  pose proof (frame_len_range (byte0 f)). lia.
Qed.

(** ** The write side *)

Ltac splits := repeat match goal with |- _ /\ _ => split end.

Ltac fields :=
  cbn [can_read_buffer can_write_buffer can_rx_q can_tx_q sent resumed
       set_write_buffer set_read_buffer set_rx_q do_can_send signal
       ptr tail_size data].

Lemma write_loop_done (fuel : nat) (st : comms) (src : list uint8_t) (pos len : Z) :
  len <= pos -> write_loop fuel st src pos len = Ok st.
Proof.
  intros H. destruct fuel; simpl; destruct (Z.ltb_spec pos len); (lia || reflexivity).
Qed.

Lemma to_packet_memcpy (f rest : list uint8_t) :
  firstn (length f) (f ++ rest) ++ skipn (length f) zero_packet = to_packet f.
Proof.
  unfold to_packet.
  rewrite firstn_app, firstn_all, Nat.sub_diag. simpl firstn. now rewrite app_nil_r.
Qed.

(** The loop submits the complete frames of what is left of the input, in
    order, and keeps the beginning of one more frame, if any, in the buffer. *)
Lemma write_loop_spec (fs : list (list uint8_t)) :
  forall (r src : list uint8_t) (st : comms) (pos : Z) (fuel : nat),
  Z.of_nat (length src) <= INT_MAX ->
  0 <= pos <= Z.of_nat (length src) ->
  skipn (Z.to_nat pos) src = concat fs ++ r ->
  Forall wire_frame fs -> remainder r ->
  Z.of_nat (length (data (can_write_buffer st))) = ASM_BUFFER_SIZE ->
  (length fs < fuel)%nat ->
  exists st',
    write_loop fuel st src pos (Z.of_nat (length src)) = Ok st'
    /\ can_read_buffer st' = can_read_buffer st
    /\ can_rx_q st' = can_rx_q st
    /\ resumed st' = resumed st
    /\ sent st' = sent st ++ map submitted fs
    /\ can_tx_q st' = pool_after fs (can_tx_q st)
    /\ can_write_buffer st' =
       match r with
       | [] => can_write_buffer st
       | _ => mk_asm_buffer (Z.of_nat (length r))
                (frame_len (byte0 r) - Z.of_nat (length r))
                (r ++ skipn (length r) (data (can_write_buffer st)))
       end.
Proof using dlc_size dlc_envelope.
  unfold INT_MAX, ASM_BUFFER_SIZE.
  induction fs as [|f fs IH]; intros r src st pos fuel Hmax Hpos Hskip Hfs Hr Hbuf Hfuel.
  - simpl in Hskip.
    assert (Hlen : Z.of_nat (length r) = Z.of_nat (length src) - pos).
    { rewrite <- Hskip, length_skipn. lia. }
    destruct r as [|b r'].
    + exists st. rewrite write_loop_done by (simpl in Hlen; lia).
      simpl. rewrite app_nil_r. repeat split.
    + destruct Hr as [Hr | [_ Hlt]]; [discriminate|].
      change (byte0 (b :: r')) with b in *.
      pose proof (frame_len_range b) as Hfl.
      destruct fuel as [|fuel]; [lia|].
      pose proof Hlen as Hlen'. cbn [length] in Hlen', Hlt.
      cbn [write_loop]. destruct (Z.ltb_spec pos (Z.of_nat (length src))); [|lia].
      rewrite load_skipn by lia. rewrite Hskip. change (byte0 (b :: r')) with b.
      cbn [bind]. rewrite dlc_lookup_code. cbn [bind]. rewrite pckt_len_eq.
      rewrite (uint32_small (pos + frame_len b)) by lia.
      destruct (Z.leb_spec (pos + frame_len b) (Z.of_nat (length src))); [lia|].
      rewrite (uint32_small (Z.of_nat (length src) - pos)) by lia.
      rewrite memcpy_front by lia. cbn [bind].
      rewrite write_loop_done by (rewrite uint32_small; lia).
      eexists. split; [reflexivity|]. fields. cbn [map pool_after fold_left].
      rewrite app_nil_r, Hskip. repeat split.
      rewrite (uint32_small (frame_len b - _)) by lia.
      rewrite <- Hlen, Nat2Z.id, firstn_all. reflexivity.
  - inversion Hfs as [|? ? Hf Hfs']; subst.
    pose proof (wire_frame_nonempty _ Hf) as Hfne.
    pose proof (frame_len_range (byte0 f)) as Hfl.
    unfold wire_frame in Hf.
    simpl in Hskip. rewrite <- app_assoc in Hskip.
    assert (Hlen : Z.of_nat (length f) <= Z.of_nat (length src) - pos).
    { assert (Hl := f_equal (@length _) Hskip).
      rewrite length_skipn, length_app in Hl. lia. }
    destruct fuel as [|fuel]; [simpl in Hfuel; lia|].
    cbn [write_loop]. destruct (Z.ltb_spec pos (Z.of_nat (length src))); [|lia].
    rewrite load_skipn by lia. rewrite Hskip, byte0_app by assumption.
    cbn [bind]. rewrite dlc_lookup_code. cbn [bind]. rewrite pckt_len_eq.
    rewrite (uint32_small (pos + frame_len (byte0 f))) by lia.
    destruct (Z.leb_spec (pos + frame_len (byte0 f)) (Z.of_nat (length src))); [|lia].
    rewrite memcpy_front by (unfold zero_packet; rewrite ?repeat_length; simpl; lia).
    cbn [bind]. rewrite Hskip, <- Hf, Nat2Z.id, to_packet_memcpy.
    destruct (IH r src (do_can_send (to_packet f) st) (pos + Z.of_nat (length f)) fuel)
      as (st' & Hrun & Hrb & Hq & Hres & Hsent & Hpool & Hwb); try assumption.
    + lia.
    + replace (Z.to_nat (pos + Z.of_nat (length f))) with (length f + Z.to_nat pos)%nat by lia.
      rewrite <- skipn_skipn, Hskip, skipn_app, skipn_all, Nat.sub_diag. reflexivity.
    + simpl in Hfuel. lia.
    + exists st'. split; [exact Hrun|].
      rewrite Hrb, Hq, Hres, Hsent, Hpool, Hwb. fields. cbn [map pool_after fold_left].
      rewrite <- app_assoc. repeat split.
Qed.

Lemma refresh_fields (st : comms) :
  refresh_can_tx_slots_available st
  = mk_comms (can_read_buffer st) (can_write_buffer st) (can_rx_q st) (can_tx_q st)
             (sent st) (resumed st ++ signals (can_tx_q st)).
Proof.
  unfold refresh_can_tx_slots_available, signals, can_tx_check_min_slots_free.
  destruct st as [rb wb q tx sn rs]. fields.
  destruct (MAX_CAN_MSGS_PER_USB_BULK_TRANSFER <=? free_slots tx);
    fields; destruct (MAX_CAN_MSGS_PER_SPI_BULK_TRANSFER <=? free_slots tx);
    unfold signal; fields; rewrite <- ?app_assoc, ?app_nil_r; reflexivity.
Qed.

Lemma byte0_firstn (n : nat) (l : list uint8_t) :
  (0 < n)%nat -> byte0 (firstn n l) = byte0 l.
Proof. destruct n; [lia|]. now destruct l. Qed.

Lemma holds_partial_loop (wb : asm_buffer) (r : list uint8_t) :
  asm_ok wb -> remainder r -> ptr wb = 0 ->
  let wb' := match r with
             | [] => wb
             | _ => mk_asm_buffer (Z.of_nat (length r))
                      (frame_len (byte0 r) - Z.of_nat (length r))
                      (r ++ skipn (length r) (data wb))
             end in
  asm_ok wb' /\ holds_partial wb' r.
Proof using dlc_size dlc_envelope.
  unfold asm_ok, holds_partial, ASM_BUFFER_SIZE. intros (Hlen & Hptr & Htail) Hr H0.
  destruct r as [|b r']; cbn zeta.
  - repeat split; try lia; try assumption. congruence.
  - destruct Hr as [Hr | [_ Hlt]]; [discriminate|].
    pose proof (frame_len_range (byte0 (b :: r'))) as Hfl.
    cbn [ptr tail_size data]. rewrite length_app, length_skipn, firstn_app, firstn_all.
    rewrite Nat.sub_diag. cbn [firstn]. rewrite app_nil_r.
    repeat split; lia.
Qed.

(** One call of [comms_can_write] on a buffer that satisfies the invariant. *)
Lemma write_step (st : comms) (src : list uint8_t) :
  asm_ok (can_write_buffer st) -> write_inv (can_write_buffer st) ->
  Z.of_nat (length src) <= INT_MAX ->
  exists st' fs r,
    comms_can_write st src (Z.of_nat (length src)) = Ok st'
    /\ write_post st src st' fs r.
Proof using dlc_size dlc_envelope.
  intros Hok Hinv Hmax. pose proof Hok as (Hlen & Hptr & Htail).
  unfold ASM_BUFFER_SIZE in Hlen. pose proof Hmax as Hmax'. unfold INT_MAX in Hmax'.
  unfold comms_can_write, write_post.
  destruct (Z.eqb_spec (ptr (can_write_buffer st)) 0) as [H0|Hn0]; cbn [negb].
  - (* no frame in assembly *)
    cbn [bind]. rewrite H0. cbn [Z.to_nat firstn app].
    destruct (frames_exist src) as (fs & r & Heq & Hfs & Hr).
    destruct (write_loop_spec fs r src st 0 (S (Z.to_nat (Z.of_nat (length src)))))
      as (st2 & Hrun & Hrb & Hq & Hres & Hsent & Hpool & Hwb);
      try assumption; try lia.
    { apply frames_count in Hfs. rewrite Heq, length_app. lia. }
    rewrite Hrun. cbn [bind]. rewrite refresh_fields.
    eexists _, fs, r. split; [reflexivity|]. fields.
    rewrite Hrb, Hq, Hres, Hsent, Hpool, Hwb.
    destruct (holds_partial_loop (can_write_buffer st) r Hok Hr H0) as [? ?].
    splits; solve [assumption | reflexivity].
  - (* a frame in assembly *)
    assert (Hpos : 0 < ptr (can_write_buffer st)) by lia.
    pose proof (Hinv Hpos) as Hsum.
    pose proof (frame_len_range (byte0 (data (can_write_buffer st)))) as Hfl.
    set (wb := can_write_buffer st) in *.
    set (P := firstn (Z.to_nat (ptr wb)) (data wb)).
    assert (HP : Z.of_nat (length P) = ptr wb) by (subst P; rewrite length_firstn; lia).
    assert (HP0 : byte0 P = byte0 (data wb)) by (subst P; apply byte0_firstn; lia).
    assert (HPne : P <> []) by (intros HPe; rewrite HPe in HP; simpl in HP; lia).
    rewrite Z.sub_0_r, (uint32_small (Z.of_nat (length src))) by lia.
    destruct (Z.leb_spec (tail_size wb) (Z.of_nat (length src))) as [Hfit|Hshort].
    + (* the input completes the frame *)
      rewrite memcpy_ok by lia. cbn [bind].
      rewrite (uint32_small (ptr wb + tail_size wb)) by lia.
      set (d := firstn (Z.to_nat (ptr wb)) (data wb) ++ _).
      set (f := P ++ firstn (Z.to_nat (tail_size wb)) src).
      assert (Hf : Z.of_nat (length f) = ptr wb + tail_size wb).
      { subst f. rewrite length_app, length_firstn. lia. }
      assert (Hd : firstn (Z.to_nat (ptr wb + tail_size wb)) (skipn (Z.to_nat 0) d) = f).
      { subst d f. fold P. cbn [Z.to_nat skipn]. rewrite app_assoc.
        rewrite firstn_app. rewrite firstn_all2 by (rewrite length_app, length_firstn; lia).
        rewrite length_app, length_firstn.
        replace (_ - _)%nat with 0%nat by lia. cbn [firstn]. now rewrite app_nil_r. }
      assert (Hdl : length d = length (data wb)).
      { subst d. change (Z.to_nat 0) with 0%nat. cbn [skipn].
        rewrite !length_app, !length_firstn, !length_skipn. lia. }
      rewrite memcpy_front
        by (unfold zero_packet; rewrite ?repeat_length; unfold CANPACKET_SIZE; lia).
      cbn [bind]. rewrite Hd.
      replace (Z.to_nat (ptr wb + tail_size wb)) with (length f) by lia.
      fold (to_packet f).
      rewrite Z.add_0_l, (uint32_small (tail_size wb)) by lia.
      destruct (frames_exist (skipn (Z.to_nat (tail_size wb)) src))
        as (fs & r & Heq & Hfs & Hr).
      match goal with |- context [write_loop _ ?s _ _ _] => set (st1 := s) end.
      destruct (write_loop_spec fs r src st1 (tail_size wb)
                  (S (Z.to_nat (Z.of_nat (length src)))))
        as (st2 & Hrun & Hrb & Hq & Hres & Hsent & Hpool & Hwb);
        try assumption; try lia.
      { subst st1. fields. unfold ASM_BUFFER_SIZE. lia. }
      { apply frames_count in Hfs. apply (f_equal (@length _)) in Heq.
        rewrite length_skipn, length_app in Heq. lia. }
      rewrite Hrun. cbn [bind]. rewrite refresh_fields.
      eexists _, (f :: fs), r. split; [reflexivity|]. fields.
      rewrite Hrb, Hq, Hres, Hsent, Hpool, Hwb. subst st1. fields.
      assert (Hwf : wire_frame f).
      { unfold wire_frame. rewrite Hf. subst f. rewrite byte0_app, HP0 by assumption. lia. }
      destruct (holds_partial_loop (mk_asm_buffer 0 0 d) r) as [? ?];
        [unfold asm_ok, ASM_BUFFER_SIZE; cbn [ptr tail_size data]; lia | assumption | reflexivity |].
      cbn [map pool_after fold_left concat]. rewrite <- !app_assoc.
      splits; try assumption; try reflexivity.
      * subst f. rewrite <- !app_assoc, <- Heq, firstn_skipn. reflexivity.
      * constructor; assumption.
    + (* maybe next time *)
      rewrite memcpy_ok by lia. cbn [bind].
      rewrite write_loop_done by (rewrite Z.add_0_l, uint32_small; lia).
      cbn [bind]. rewrite refresh_fields.
      eexists _, [], (P ++ src). split; [reflexivity|]. fields.
      rewrite (uint32_small (ptr wb + _)), (uint32_small (tail_size wb - _)) by lia.
      cbn [map pool_after fold_left concat app]. rewrite app_nil_r.
      change (Z.to_nat 0) with 0%nat. cbn [skipn]. rewrite Nat2Z.id, firstn_all. fold P.
      assert (Hr : partial_frame (P ++ src)).
      { split; [intros Ha; apply app_eq_nil in Ha as [? _]; contradiction|].
        rewrite byte0_app, length_app, HP0 by assumption. lia. }
      splits; try reflexivity; try (now constructor); try (now right).
      * unfold asm_ok, ASM_BUFFER_SIZE. cbn [ptr tail_size data].
        rewrite !length_app, length_skipn. lia.
      * unfold holds_partial. cbn [ptr tail_size data]. splits.
        -- rewrite length_app. lia.
        -- rewrite app_assoc, firstn_app, firstn_all, Nat.sub_diag.
           cbn [firstn]. now rewrite app_nil_r.
        -- intros _. rewrite byte0_app, HP0 by assumption. lia.
Qed.

Lemma holds_partial_inv (wb : asm_buffer) (r : list uint8_t) :
  holds_partial wb r ->
  write_inv wb /\ firstn (Z.to_nat (ptr wb)) (data wb) = r.
Proof.
  unfold holds_partial, write_inv. intros (Hptr & Hdata & Hsum).
  rewrite Hptr, Nat2Z.id. split; [| exact Hdata].
  intros Hpos. rewrite <- Hptr.
  assert (Hne : r <> []) by (intros ->; simpl in Hpos; lia).
  rewrite Hsum by assumption. f_equal.
  rewrite <- Hdata at 1. apply byte0_firstn. lia.
Qed.

Lemma pool_after_app (fs gs : list (list uint8_t)) (pool : tx_pool) :
  pool_after (fs ++ gs) pool = pool_after gs (pool_after fs pool).
Proof. unfold pool_after. apply fold_left_app. Qed.

(** Successive writes read the concatenation of their chunks as one stream. *)
Lemma write_all_stream (chunks : list (list uint8_t)) :
  forall (st : comms) (r0 : list uint8_t),
  asm_ok (can_write_buffer st) -> holds_partial (can_write_buffer st) r0 ->
  remainder r0 ->
  Forall (fun c => Z.of_nat (length c) <= INT_MAX) chunks ->
  exists st' fs r,
    write_all st chunks = Ok st'
    /\ r0 ++ concat chunks = concat fs ++ r
    /\ Forall wire_frame fs /\ remainder r
    /\ sent st' = sent st ++ map submitted fs
    /\ can_tx_q st' = pool_after fs (can_tx_q st)
    /\ can_read_buffer st' = can_read_buffer st
    /\ can_rx_q st' = can_rx_q st
    /\ asm_ok (can_write_buffer st')
    /\ holds_partial (can_write_buffer st') r.
Proof using dlc_size dlc_envelope.
  induction chunks as [|c cs IH]; intros st r0 Hok Hp Hr0 Hmax.
  - exists st, [], r0. cbn [write_all concat map pool_after fold_left app].
    rewrite !app_nil_r. splits; try reflexivity; try assumption. constructor.
  - inversion Hmax as [|? ? Hc Hcs]; subst.
    destruct (holds_partial_inv _ _ Hp) as [Hinv Hpend].
    destruct (write_step st c Hok Hinv Hc) as (st1 & fs1 & r1 & Hrun1 & Hpost).
    destruct Hpost as (Heq1 & Hfs1 & Hr1 & Hrb1 & Hq1 & Hsent1 & Hpool1 & _ & Hok1 & Hp1).
    rewrite Hpend in Heq1.
    destruct (IH st1 r1 Hok1 Hp1 Hr1 Hcs)
      as (st2 & fs2 & r2 & Hrun2 & Heq2 & Hfs2 & Hr2 & Hsent2 & Hpool2 & Hrb2 & Hq2 & Hok2 & Hp2).
    exists st2, (fs1 ++ fs2), r2. cbn [write_all]. rewrite Hrun1. cbn [bind].
    splits; try assumption.
    + cbn [concat]. rewrite app_assoc, Heq1, <- app_assoc, Heq2, concat_app.
      now rewrite app_assoc.
    + apply Forall_app. now split.
    + rewrite Hsent2, Hsent1, map_app. now rewrite app_assoc.
    + rewrite Hpool2, Hpool1. symmetry. apply pool_after_app.
    + congruence.
    + congruence.
Qed.

(** ** The read side *)

Lemma wire_length (p : CANPacket_t) :
  Z.of_nat (length p) = CANPACKET_SIZE ->
  Z.of_nat (length (wire p)) = frame_len (byte0 p).
Proof using dlc_size dlc_envelope.
  unfold wire, CANPACKET_SIZE. intros Hp. pose proof (frame_len_range (byte0 p)).
  rewrite length_firstn. lia.
Qed.

Lemma read_lookup (p : CANPacket_t) :
  dlc_lookup (data_len_code p) = Ok (payload_len (byte0 p)).
Proof using dlc_size. unfold data_len_code. apply dlc_lookup_code. Qed.

(** The loop hands the host the next bytes of the serialized queue, as many
    as the destination still takes, and keeps what it cut off a frame. *)
Lemma read_loop_spec (q : list CANPacket_t) :
  forall (rb : asm_buffer) (out : list uint8_t) (pos max_len : Z),
  Z.of_nat (length (data rb)) = ASM_BUFFER_SIZE -> ptr rb = 0 ->
  queue_ok q ->
  0 <= pos <= max_len -> max_len <= INT_MAX -> max_len <= Z.of_nat (length out) ->
  exists q' rb' out',
    let n := Z.min (max_len - pos) (Z.of_nat (length (serialize q))) in
    read_loop q rb out pos max_len = Ok (q', rb', out', pos + n)
    /\ out' = firstn (Z.to_nat pos) out ++ firstn (Z.to_nat n) (serialize q)
              ++ skipn (Z.to_nat (pos + n)) out
    /\ firstn (Z.to_nat (ptr rb')) (data rb') ++ serialize q'
       = skipn (Z.to_nat n) (serialize q)
    /\ Z.of_nat (length (data rb')) = ASM_BUFFER_SIZE
    /\ 0 <= ptr rb' < 70
    /\ tail_size rb' = tail_size rb
    /\ queue_ok q'.
Proof using dlc_size dlc_envelope.
  unfold INT_MAX, ASM_BUFFER_SIZE.
  induction q as [|p q IH]; intros rb out pos max_len Hd Hptr Hq Hpos Hmax Hout; cbn zeta.
  - exists [], rb, out. cbn [serialize map concat length].
    rewrite Z.min_r, Z.add_0_r by lia. cbn [Z.to_nat firstn skipn app].
    rewrite firstn_skipn. rewrite Hptr.
    splits; try reflexivity; try assumption; try lia.
    cbn [read_loop]. now destruct (pos <? max_len).
  - inversion Hq as [|? ? Hp Hq']; subst.
    pose proof (frame_len_range (byte0 p)) as Hfl.
    pose proof (wire_length p Hp) as Hw. unfold CANPACKET_SIZE in Hp.
    change (serialize (p :: q)) with (wire p ++ serialize q).
    rewrite length_app.
    cbn [read_loop]. destruct (Z.ltb_spec pos max_len) as [Hlt|Hge].
    + rewrite read_lookup. cbn [bind]. rewrite pckt_len_eq.
      rewrite (uint32_small (pos + frame_len (byte0 p))) by lia.
      destruct (Z.leb_spec (pos + frame_len (byte0 p)) max_len) as [Hfit|Hcut].
      * (* the frame fits *)
        rewrite memcpy_ok by lia. cbn [bind].
        change (Z.to_nat 0) with 0%nat. cbn [skipn]. fold (wire p).
        set (out1 := firstn (Z.to_nat pos) out ++ wire p ++ _).
        assert (Hout1 : length out1 = length out).
        { subst out1. rewrite !length_app, length_firstn, length_skipn. lia. }
        destruct (IH rb out1 (pos + frame_len (byte0 p)) max_len)
          as (q' & rb' & out' & Hrun & Hout' & Howed & Hd' & Hptr' & Htail' & Hq'');
          try assumption; try lia.
        exists q', rb', out'. rewrite Hrun.
        set (n' := Z.min (max_len - (pos + frame_len (byte0 p)))
                         (Z.of_nat (length (serialize q)))) in *.
        replace (Z.min (max_len - pos)
                   (Z.of_nat (length (wire p) + length (serialize q))))
          with (frame_len (byte0 p) + n') by lia.
        assert (Hn' : 0 <= n') by lia.
        splits; try assumption; try lia.
        -- do 2 f_equal. lia.
        -- rewrite Hout'. subst out1.
           rewrite (app_assoc (firstn (Z.to_nat pos) out) (wire p)).
           rewrite firstn_prefix by (rewrite length_app, length_firstn; lia).
           rewrite (skipn_prefix _ _ (Z.to_nat n'))
             by (rewrite length_app, length_firstn; lia).
           rewrite skipn_skipn.
           replace (Z.to_nat (frame_len (byte0 p) + n'))
             with (length (wire p) + Z.to_nat n')%nat by lia.
           rewrite firstn_app_2, <- !app_assoc. do 4 f_equal. lia.
        -- rewrite Howed.
           replace (Z.to_nat (frame_len (byte0 p) + n'))
             with (length (wire p) + Z.to_nat n')%nat by lia.
           now rewrite (skipn_prefix (wire p) _ (Z.to_nat n')).
      * (* the frame is cut *)
        rewrite (uint32_small (max_len - pos)) by lia.
        rewrite memcpy_ok by lia. cbn [bind].
        rewrite Hptr, Z.add_0_l.
        rewrite (uint32_small (frame_len (byte0 p) - _)) by lia.
        rewrite (uint32_small (frame_len (byte0 p) - _)) by lia.
        rewrite memcpy_front by lia. cbn [bind].
        assert (Hdone : forall q0 rb0 out0,
          read_loop q0 rb0 out0 max_len max_len = Ok (q0, rb0, out0, max_len)).
        { intros q0 rb0 out0. destruct q0; cbn [read_loop];
            destruct (Z.ltb_spec max_len max_len); (lia || reflexivity). }
        rewrite Hdone. clear Hdone.
        rewrite Z.min_l by lia.
        replace (pos + (max_len - pos)) with max_len by lia.
        set (k := Z.to_nat (max_len - pos)).
        set (m := Z.to_nat (frame_len (byte0 p) - (max_len - pos))).
        eexists _, _, _. split; [reflexivity|]. cbn [ptr tail_size data].
        change (Z.to_nat 0) with 0%nat. cbn [skipn].
        assert (Hcutw : firstn k (wire p ++ serialize q) = firstn k p).
        { rewrite firstn_app. replace (k - length (wire p))%nat with 0%nat by lia.
          cbn [firstn]. rewrite app_nil_r. unfold wire.
          rewrite firstn_firstn. f_equal. lia. }
        assert (Hrest : skipn k (wire p ++ serialize q)
                        = firstn m (skipn k p) ++ serialize q).
        { rewrite skipn_app. replace (k - length (wire p))%nat with 0%nat by lia.
          cbn [skipn]. f_equal. unfold wire.
          rewrite skipn_firstn_comm. f_equal. lia. }
        splits; try assumption; try reflexivity; try lia.
        -- now rewrite Hcutw.
        -- rewrite Hrest. f_equal. apply firstn_prefix.
           rewrite length_firstn, length_skipn. lia.
        -- rewrite length_app, length_firstn, !length_skipn. lia.
    + (* the destination is full *)
      exists (p :: q), rb, out. assert (pos = max_len) as -> by lia.
      rewrite Z.sub_diag, Z.min_l, Z.add_0_r by lia.
      cbn [Z.to_nat firstn skipn app]. rewrite firstn_skipn, Hptr.
      splits; try assumption; try reflexivity; try lia.
Qed.

(** One call of [comms_can_read]. *)
Lemma read_step (st : comms) (out : list uint8_t) (max_len : Z) :
  asm_ok (can_read_buffer st) -> read_inv (can_read_buffer st) ->
  queue_ok (can_rx_q st) ->
  0 <= max_len <= INT_MAX -> max_len <= Z.of_nat (length out) ->
  exists st' out' n,
    comms_can_read st out max_len = Ok (st', out', n)
    /\ read_post st out max_len st' out' n.
Proof using dlc_size dlc_envelope.
  intros Hok Hinv Hq Hmax Hout. pose proof Hok as (Hlen & Hptr & Htail).
  unfold read_inv in Hinv. pose proof Hmax as Hmax'.
  unfold ASM_BUFFER_SIZE, INT_MAX in *.
  unfold comms_can_read, read_post, owed.
  set (rb := can_read_buffer st) in *.
  destruct (Z.ltb_spec 0 (ptr rb)) as [Hpos|Hzero].
  - (* a tail is owed from the previous call *)
    rewrite Z.sub_0_r, (uint32_small max_len) by lia.
    set (ov := Z.min max_len (ptr rb)).
    assert (Hov : 0 <= ov <= ptr rb /\ ov <= max_len) by lia.
    rewrite memcpy_front by lia. cbn [bind].
    rewrite memcpy_self_front by (rewrite ?uint32_small; lia). cbn [bind].
    rewrite (uint32_small (ptr rb - ov)), Z.add_0_l, (uint32_small ov) by lia.
    cbn [ptr]. change (Z.to_nat 0) with 0%nat. cbn [skipn].
    set (P := firstn (Z.to_nat (ptr rb)) (data rb)).
    assert (HP : Z.of_nat (length P) = ptr rb) by (subst P; rewrite length_firstn; lia).
    assert (HPov : firstn (Z.to_nat ov) (data rb) = firstn (Z.to_nat ov) P).
    { subst P. rewrite firstn_firstn. f_equal. lia. }
    destruct (Z.eqb_spec (ptr rb - ov) 0) as [Hall|Hpart].
    + (* the whole tail goes out; frames follow *)
      assert (Hovp : ov = ptr rb) by lia.
      set (out1 := firstn (Z.to_nat ov) (data rb) ++ skipn (Z.to_nat ov) out).
      set (rb1 := mk_asm_buffer (ptr rb - ov) (tail_size rb) _).
      destruct (read_loop_spec (can_rx_q st) rb1 out1 ov max_len)
        as (q' & rb' & out' & Hrun & Hout' & Howed & Hd' & Hptr' & Htail' & Hq');
        try assumption; try lia; try (unfold INT_MAX; lia).
      { subst rb1. cbn [data]. unfold ASM_BUFFER_SIZE.
        rewrite Hall. change (Z.to_nat 0) with 0%nat. cbn [firstn app].
        rewrite length_skipn. lia. }
      { subst out1. rewrite length_app, length_firstn, length_skipn. lia. }
      cbn zeta in Hrun. rewrite Hrun. cbn [bind].
      set (n' := Z.min (max_len - ov) (Z.of_nat (length (serialize (can_rx_q st))))) in *.
      rewrite int_of_uint32_small by (unfold INT_MAX; lia).
      eexists _, _, _. split; [reflexivity|]. fields.
      rewrite length_app.
      splits; try reflexivity; try assumption; try (unfold read_inv, ASM_BUFFER_SIZE; lia).
      * rewrite Hout'. subst out1. rewrite HPov, Hovp.
        rewrite firstn_prefix by (rewrite length_firstn; lia).
        rewrite (skipn_prefix _ _ (Z.to_nat n')) by (rewrite length_firstn; lia).
        rewrite skipn_skipn.
        replace (Z.to_nat (ptr rb + n')) with (length P + Z.to_nat n')%nat by lia.
        rewrite firstn_app_2, <- app_assoc.
        replace (firstn (Z.to_nat (ptr rb)) P) with P
          by (symmetry; apply firstn_all2; lia).
        do 3 f_equal. lia.
      * rewrite Howed.
        replace (Z.to_nat (ov + n')) with (length P + Z.to_nat n')%nat by lia.
        now rewrite (skipn_prefix P _ (Z.to_nat n')).
      * unfold asm_ok, ASM_BUFFER_SIZE in *. rewrite Htail'. subst rb1. cbn [tail_size]. lia.
    + (* the destination is full before the tail is out *)
      assert (Hovm : ov = max_len) by lia.
      rewrite int_of_uint32_small by (unfold INT_MAX; lia).
      eexists _, _, _. split; [reflexivity|]. fields. cbn [ptr tail_size data].
      rewrite length_app.
      assert (Hd1 : firstn (Z.to_nat (ptr rb - ov))
                      (firstn (Z.to_nat (ptr rb - ov)) (skipn (Z.to_nat ov) (data rb))
                       ++ skipn (Z.to_nat (ptr rb - ov)) (data rb))
                    = skipn (Z.to_nat ov) P).
      { rewrite firstn_prefix by (rewrite length_firstn, length_skipn; lia).
        subst P. rewrite skipn_firstn_comm. f_equal. lia. }
      splits; try reflexivity; try assumption.
      * lia.
      * rewrite HPov. f_equal. rewrite firstn_app.
        replace (Z.to_nat ov - length P)%nat with 0%nat by lia.
        cbn [firstn]. now rewrite app_nil_r.
      * rewrite Hd1, skipn_app.
        replace (Z.to_nat ov - length P)%nat with 0%nat by lia. reflexivity.
      * unfold asm_ok, ASM_BUFFER_SIZE. cbn [ptr tail_size data].
        rewrite length_app, length_firstn, !length_skipn. lia.
      * unfold read_inv, ASM_BUFFER_SIZE. cbn [ptr]. lia.
  - (* nothing owed from the previous call *)
    cbn [bind]. assert (H0 : ptr rb = 0) by lia.
    rewrite H0. cbn [Z.eqb]. change (Z.to_nat 0) with 0%nat. cbn [firstn app].
    destruct (read_loop_spec (can_rx_q st) rb out 0 max_len)
      as (q' & rb' & out' & Hrun & Hout' & Howed & Hd' & Hptr' & Htail' & Hq');
      try assumption; try lia; try (unfold INT_MAX; lia).
    cbn zeta in Hrun. rewrite Z.sub_0_r, Z.add_0_l in *. rewrite Hrun. cbn [bind].
    set (n := Z.min max_len (Z.of_nat (length (serialize (can_rx_q st))))) in *.
    rewrite int_of_uint32_small by (unfold INT_MAX; lia).
    eexists _, _, _. split; [reflexivity|]. fields.
    splits; try reflexivity; try assumption; try (unfold read_inv, ASM_BUFFER_SIZE; lia).
    unfold asm_ok, ASM_BUFFER_SIZE in *. rewrite Htail'. lia.
Qed.

Lemma firstn_min_add {A : Type} (l : list A) (n a b : nat) :
  n = Nat.min a (length l) ->
  firstn n l ++ firstn b (skipn n l) = firstn (a + b) l.
Proof.
  intros Hn. destruct (Nat.le_gt_cases a (length l)) as [Hle|Hgt].
  - replace n with a by lia.
    rewrite <- (firstn_skipn a l) at 3.
    rewrite firstn_app, length_firstn.
    replace (a + b - Nat.min a (length l))%nat with b by lia.
    f_equal. rewrite firstn_firstn. f_equal. lia.
  - replace n with (length l) by lia.
    rewrite skipn_all, firstn_nil, app_nil_r, firstn_all.
    symmetry. apply firstn_all2. lia.
Qed.

(** Successive reads hand out the bytes owed in order, each call as many as
    its array takes. *)
Lemma read_all_stream (outs : list (list uint8_t)) :
  forall st : comms,
  asm_ok (can_read_buffer st) -> read_inv (can_read_buffer st) ->
  queue_ok (can_rx_q st) ->
  Forall (fun out => Z.of_nat (length out) <= INT_MAX) outs ->
  exists st' rs,
    read_all st outs = Ok (st', rs)
    /\ concat rs = firstn (Z.to_nat (capacity outs)) (owed st)
    /\ owed st' = skipn (Z.to_nat (capacity outs)) (owed st)
    /\ length rs = length outs
    /\ can_write_buffer st' = can_write_buffer st
    /\ sent st' = sent st /\ resumed st' = resumed st.
Proof using dlc_size dlc_envelope.
  unfold capacity.
  induction outs as [|out os IH]; intros st Hok Hinv Hq Hmax.
  - exists st, []. cbn [read_all concat length Z.of_nat Z.to_nat firstn skipn].
    splits; reflexivity.
  - inversion Hmax as [|? ? Ho Hos]; subst.
    destruct (read_step st out (Z.of_nat (length out)) Hok Hinv Hq)
      as (st1 & out' & n & Hrun & Hpost); [lia | lia |].
    destruct Hpost as (Hn & Hout' & Howed & Hok1 & Hinv1 & Hq1 & Hwb1 & _ & Hs1 & Hr1).
    destruct (IH st1 Hok1 Hinv1 Hq1 Hos)
      as (st2 & rs & Hrun2 & Hcat & Howed2 & Hlen2 & Hwb2 & Hs2 & Hr2).
    exists st2, (firstn (Z.to_nat n) out' :: rs).
    cbn [read_all]. rewrite Hrun. cbn [bind]. rewrite Hrun2. cbn [bind].
    assert (Hnn : Z.to_nat n = Nat.min (length out) (length (owed st))) by lia.
    splits; try congruence.
    + cbn [concat]. rewrite Hcat, Howed, Hout'.
      rewrite firstn_prefix by (rewrite length_firstn; lia).
      rewrite length_app, !Nat2Z.id. now apply firstn_min_add.
    + rewrite Howed2, Howed, skipn_skipn. cbn [concat].
      rewrite length_app, !Nat2Z.id.
      destruct (Nat.le_gt_cases (length out) (length (owed st))).
      * f_equal. lia.
      * rewrite !skipn_all2 by lia. reflexivity.
    + cbn [length]. now rewrite Hlen2.
Qed.

(** When the frames [fits] fit and the next one, [p], does not, the loop
    stops at [p]: the queue keeps what follows it and the buffer keeps what
    was cut off it. *)
Lemma read_loop_cut (fits : list CANPacket_t) :
  forall (p : CANPacket_t) (rest : list CANPacket_t) (rb : asm_buffer)
         (out : list uint8_t) (pos max_len : Z),
  Z.of_nat (length (data rb)) = ASM_BUFFER_SIZE -> ptr rb = 0 ->
  queue_ok (fits ++ p :: rest) ->
  0 <= pos -> max_len <= INT_MAX -> max_len <= Z.of_nat (length out) ->
  pos + Z.of_nat (length (serialize fits)) < max_len ->
  max_len < pos + Z.of_nat (length (serialize fits)) + frame_len (byte0 p) ->
  exists rb' out',
    read_loop (fits ++ p :: rest) rb out pos max_len = Ok (rest, rb', out', max_len)
    /\ ptr rb' = frame_len (byte0 p)
                 - (max_len - pos - Z.of_nat (length (serialize fits)))
    /\ firstn (Z.to_nat (ptr rb')) (data rb')
       = skipn (Z.to_nat (max_len - pos - Z.of_nat (length (serialize fits)))) (wire p).
Proof using dlc_size dlc_envelope.
  unfold INT_MAX, ASM_BUFFER_SIZE.
  induction fits as [|f fits IH];
    intros p rest rb out pos max_len Hd Hptr Hq Hpos Hmax Hout Hlo Hhi.
  - cbn [app serialize map concat length Z.of_nat] in *.
    inversion Hq as [|? ? Hp _]; subst.
    pose proof (frame_len_range (byte0 p)) as Hfl.
    pose proof (wire_length p Hp) as Hw. unfold CANPACKET_SIZE in Hp.
    cbn [read_loop]. destruct (Z.ltb_spec pos max_len); [|lia].
    rewrite read_lookup. cbn [bind]. rewrite pckt_len_eq.
    rewrite (uint32_small (pos + frame_len (byte0 p))) by lia.
    destruct (Z.leb_spec (pos + frame_len (byte0 p)) max_len); [lia|].
    rewrite (uint32_small (max_len - pos)) by lia.
    rewrite memcpy_ok by lia. cbn [bind].
    rewrite Hptr, Z.add_0_l.
    rewrite (uint32_small (frame_len (byte0 p) - _)) by lia.
    rewrite (uint32_small (frame_len (byte0 p) - _)) by lia.
    rewrite memcpy_front by lia. cbn [bind].
    assert (Hdone : forall q0 rb0 out0,
      read_loop q0 rb0 out0 max_len max_len = Ok (q0, rb0, out0, max_len)).
    { intros q0 rb0 out0. destruct q0; cbn [read_loop];
        destruct (Z.ltb_spec max_len max_len); (lia || reflexivity). }
    rewrite Hdone. eexists _, _. split; [reflexivity|]. cbn [ptr data].
    rewrite Z.sub_0_r. split; [reflexivity|].
    rewrite firstn_prefix by (rewrite length_firstn, length_skipn; lia).
    unfold wire. rewrite skipn_firstn_comm. f_equal. lia.
  - cbn [app] in *. inversion Hq as [|? ? Hf Hq']; subst.
    pose proof (frame_len_range (byte0 f)) as Hfl.
    pose proof (wire_length f Hf) as Hw. unfold CANPACKET_SIZE in Hf.
    change (serialize (f :: fits)) with (wire f ++ serialize fits) in *.
    rewrite length_app in *.
    cbn [read_loop]. destruct (Z.ltb_spec pos max_len); [|lia].
    rewrite read_lookup. cbn [bind]. rewrite pckt_len_eq.
    rewrite (uint32_small (pos + frame_len (byte0 f))) by lia.
    destruct (Z.leb_spec (pos + frame_len (byte0 f)) max_len); [|lia].
    rewrite memcpy_ok by lia. cbn [bind].
    match goal with |- context [read_loop _ _ ?o _ _] => set (out1 := o) end.
    destruct (IH p rest rb out1 (pos + frame_len (byte0 f)) max_len)
      as (rb' & out' & Hrun & Hptr' & Hkeep); try assumption; try lia.
    { subst out1. rewrite !length_app, !length_firstn, !length_skipn. lia. }
    exists rb', out'. rewrite Hrun. split; [reflexivity|].
    rewrite Hkeep, Hptr'. split; [lia | do 2 f_equal; lia].
Qed.

(** *** Table lookups never leave the table *)






(** One read that cuts the frame [p] after the frames [fits]. *)
Lemma read_cut (st : comms) (out : list uint8_t) (max_len : Z)
  (fits : list CANPacket_t) (p : CANPacket_t) (rest : list CANPacket_t) :
  asm_ok (can_read_buffer st) -> read_inv (can_read_buffer st) ->
  queue_ok (can_rx_q st) ->
  0 <= max_len <= INT_MAX -> max_len <= Z.of_nat (length out) ->
  can_rx_q st = fits ++ p :: rest ->
  ptr (can_read_buffer st) + Z.of_nat (length (serialize fits)) < max_len ->
  max_len < ptr (can_read_buffer st) + Z.of_nat (length (serialize fits))
            + frame_len (byte0 p) ->
  exists st' out' n,
    comms_can_read st out max_len = Ok (st', out', n)
    /\ can_rx_q st' = rest
    /\ ptr (can_read_buffer st')
       = frame_len (byte0 p)
         - (max_len - ptr (can_read_buffer st) - Z.of_nat (length (serialize fits)))
    /\ firstn (Z.to_nat (ptr (can_read_buffer st'))) (data (can_read_buffer st'))
       = skipn (Z.to_nat (max_len - ptr (can_read_buffer st)
                          - Z.of_nat (length (serialize fits)))) (wire p).
Proof using dlc_size dlc_envelope.
  intros Hok Hinv Hq Hmax Hout Hshape Hlo Hhi. pose proof Hok as (Hlen & Hptr & Htail).
  unfold read_inv in Hinv. pose proof Hmax as Hmax'.
  unfold ASM_BUFFER_SIZE, INT_MAX in Hlen, Hinv, Hmax'.
  unfold comms_can_read.
  set (rb := can_read_buffer st) in *.
  destruct (Z.ltb_spec 0 (ptr rb)) as [Hpos|Hzero].
  - rewrite Z.sub_0_r, (uint32_small max_len) by lia.
    rewrite Z.min_r by lia.
    rewrite memcpy_front by lia. cbn [bind].
    rewrite memcpy_self_front by (rewrite ?uint32_small; lia). cbn [bind].
    rewrite Z.sub_diag, (uint32_small 0), Z.add_0_l, (uint32_small (ptr rb)) by lia.
    cbn [ptr Z.eqb].
    match goal with |- context [read_loop _ ?b ?o _ _] => set (rb1 := b); set (out1 := o) end.
    rewrite Hshape in *.
    destruct (read_loop_cut fits p rest rb1 out1 (ptr rb) max_len)
      as (rb' & out' & Hrun & Hptr' & Hkeep); try assumption; try lia.
    { reflexivity. }
    { subst out1. change (Z.to_nat 0) with 0%nat. cbn [skipn].
      rewrite length_app, length_firstn, length_skipn. lia. }
    rewrite Hrun. cbn [bind]. eexists _, _, _. split; [reflexivity|]. fields.
    splits; [reflexivity | exact Hptr' | exact Hkeep].
  - cbn [bind]. assert (H0 : ptr rb = 0) by lia. rewrite H0 in *. cbn [Z.eqb].
    rewrite Hshape in *.
    destruct (read_loop_cut fits p rest rb out 0 max_len)
      as (rb' & out' & Hrun & Hptr' & Hkeep); try assumption; try lia.
    rewrite Hrun. cbn [bind]. eexists _, _, _. split; [reflexivity|]. fields.
    rewrite Z.sub_0_r in *. splits; [reflexivity | exact Hptr' | exact Hkeep].
Qed.

(** ** Sequences of calls *)

Lemma step_ok (st : comms) (c : call) :
  state_ok st -> call_ok c -> exists st', step st c = Ok st' /\ state_ok st'.
Proof using dlc_size dlc_envelope.
  intros (Hrb & Hri & Hwb & Hwi & Hq) Hc.
  destruct c as [out max_len | src len | | p]; cbn [step call_ok] in *.
  - destruct Hc as [Hm Ho].
    destruct (read_step st out max_len Hrb Hri Hq Hm Ho) as (st' & out' & n & Hrun & Hpost).
    destruct Hpost as (_ & _ & _ & Hrb' & Hri' & Hq' & Hwb' & _).
    rewrite Hrun. cbn [bind]. exists st'. split; [reflexivity|].
    unfold state_ok. rewrite Hwb'. splits; assumption.
  - destruct Hc as [-> Hm].
    destruct (write_step st src Hwb Hwi Hm) as (st' & fs & r & Hrun & Hpost).
    destruct Hpost as (_ & _ & _ & Hrb' & Hq' & _ & _ & _ & Hwb' & Hp').
    exists st'. split; [exact Hrun|].
    unfold state_ok. rewrite Hrb', Hq'. splits; try assumption.
    now apply holds_partial_inv in Hp'.
  - exists (comms_can_reset st). split; [reflexivity|].
    destruct Hrb as (? & _ & _), Hwb as (? & _ & _).
    unfold state_ok, asm_ok, read_inv, write_inv, comms_can_reset, ASM_BUFFER_SIZE in *.
    fields. splits; try assumption; lia.
  - eexists. split; [reflexivity|]. unfold state_ok. fields. splits; try assumption.
    apply Forall_app. split; [assumption | now constructor].
Qed.

Lemma run_ok (cs : list call) :
  forall st : comms,
  state_ok st -> Forall call_ok cs -> exists st', run st cs = Ok st' /\ state_ok st'.
Proof using dlc_size dlc_envelope.
  induction cs as [|c cs IH]; intros st Hst Hcs.
  - exists st. now split.
  - inversion Hcs as [|? ? Hc Hcs']; subst.
    destruct (step_ok st c Hst Hc) as (st1 & Hstep & Hst1).
    destruct (IH st1 Hst1 Hcs') as (st2 & Hrun & Hst2).
    exists st2. cbn [run]. rewrite Hstep. cbn [bind]. now split.
Qed.

Lemma wire_to_packet (f : list uint8_t) : wire_frame f -> wire (to_packet f) = f.
Proof using dlc_size dlc_envelope.
  intros Hf. pose proof (wire_frame_nonempty f Hf) as Hne.
  unfold wire, to_packet. rewrite byte0_app by assumption.
  apply firstn_prefix. unfold wire_frame in Hf. lia.
Qed.

Lemma reset_holds_nothing (st : comms) :
  Z.of_nat (length (data (can_write_buffer st))) = ASM_BUFFER_SIZE ->
  asm_ok (can_write_buffer (comms_can_reset st))
  /\ holds_partial (can_write_buffer (comms_can_reset st)) [].
Proof.
  intros H. unfold asm_ok, holds_partial, comms_can_reset. fields.
  splits; try assumption; try lia; try reflexivity. congruence.
Qed.

(** ** The properties of the specification *)

(** C1. Write-side reassembly: however the serialization of the frames
    [frames] is cut into the chunks of successive [comms_can_write] calls
    after a reset, all calls return, and the calls of [can_send] they make
    are exactly one per frame, in order, each with a zeroed packet object
    that holds the bytes of the frame; nothing is left in assembly. *)
Theorem write_reassembly (st : comms) (frames chunks : list (list uint8_t)) :
  Z.of_nat (length (data (can_write_buffer st))) = ASM_BUFFER_SIZE ->
  Forall wire_frame frames ->
  concat chunks = concat frames ->
  Forall (fun c => Z.of_nat (length c) <= INT_MAX) chunks ->
  exists st',
    write_all (comms_can_reset st) chunks = Ok st'
    /\ sent st' = sent st ++ map submitted frames
    /\ map (fun s => wire (fst s)) (map submitted frames) = frames
    /\ ptr (can_write_buffer st') = 0.
Proof using dlc_size dlc_envelope.
  intros Hd Hframes Hcat Hmax.
  destruct (reset_holds_nothing st Hd) as [Hok Hp].
  destruct (write_all_stream chunks (comms_can_reset st) [] Hok Hp (or_introl eq_refl) Hmax)
    as (st' & fs & r & Hrun & Heq & Hfs & Hr & Hsent & _ & _ & _ & _ & Hp').
  cbn [app] in Heq. rewrite Hcat in Heq.
  destruct (frames_unique frames fs r Hframes Hfs Hr Heq) as [<- ->].
  exists st'. splits.
  - exact Hrun.
  - exact Hsent.
  - rewrite map_map. cbn [submitted fst].
    clear - Hframes dlc_size dlc_envelope. induction Hframes as [|f fs Hf _ IH]; [reflexivity|].
    cbn [map]. now rewrite wire_to_packet, IH.
  - now destruct Hp' as [-> _].
Qed.

(** C10. After every write since a reset the input so far is the frames
    submitted followed by the bytes in the buffer, and a nonempty buffer
    starts with the first byte of its frame, still misses at least one byte,
    and knows the length of its frame from that first byte. *)
Theorem partial_frame_length_known (st : comms) (chunks : list (list uint8_t)) :
  Z.of_nat (length (data (can_write_buffer st))) = ASM_BUFFER_SIZE ->
  Forall (fun c => Z.of_nat (length c) <= INT_MAX) chunks ->
  exists st' fs r,
    write_all (comms_can_reset st) chunks = Ok st'
    /\ concat chunks = concat fs ++ r
    /\ Forall wire_frame fs
    /\ sent st' = sent st ++ map submitted fs
    /\ firstn (Z.to_nat (ptr (can_write_buffer st'))) (data (can_write_buffer st')) = r
    /\ (0 < ptr (can_write_buffer st') ->
        exists b r',
          r = b :: r'
          /\ nth_error (data (can_write_buffer st')) 0 = Some b
          /\ 1 <= tail_size (can_write_buffer st')
          /\ ptr (can_write_buffer st') + tail_size (can_write_buffer st')
             = CANPACKET_HEAD_SIZE + payload_len b).
Proof using dlc_size dlc_envelope.
  intros Hd Hmax.
  destruct (reset_holds_nothing st Hd) as [Hok Hp].
  destruct (write_all_stream chunks (comms_can_reset st) [] Hok Hp (or_introl eq_refl) Hmax)
    as (st' & fs & r & Hrun & Heq & Hfs & Hr & Hsent & _ & _ & _ & _ & Hp').
  exists st', fs, r. cbn [app] in Heq.
  destruct (holds_partial_inv _ _ Hp') as [_ Hpend].
  destruct Hp' as (Hptr & Hdata & Hsum).
  splits; try assumption.
  intros Hpos. destruct r as [|b r']; [simpl in Hptr; lia|].
  destruct Hr as [Hr | [_ Hlt]]; [discriminate|].
  exists b, r'. splits.
  - reflexivity.
  - destruct (data (can_write_buffer st')) as [|x d]; cbn [length firstn] in Hdata;
      [discriminate|]. now injection Hdata as -> _.
  - specialize (Hsum ltac:(discriminate)). cbn [byte0 nth] in Hsum, Hlt. lia.
  - now apply Hsum.
Qed.

(** C3. The write-side invariant: from a state where it holds, after any
    sequence of calls (resets, writes, and also reads and receptions) the
    calls have returned and, when the write buffer is not empty, [ptr +
    tail_size] is the length on the wire of the frame whose first byte is in
    the buffer. *)
Theorem write_invariant_preserved (st : comms) (cs : list call) :
  state_ok st -> Forall call_ok cs ->
  exists st',
    run st cs = Ok st'
    /\ state_ok st'
    /\ (0 < ptr (can_write_buffer st') ->
        ptr (can_write_buffer st') + tail_size (can_write_buffer st')
        = CANPACKET_HEAD_SIZE + payload_len (byte0 (data (can_write_buffer st')))).
Proof using dlc_size dlc_envelope.
  intros Hst Hcs. destruct (run_ok cs st Hst Hcs) as (st' & Hrun & Hst').
  exists st'. splits; try assumption.
  destruct Hst' as (_ & _ & _ & Hinv & _). exact Hinv.
Qed.

(** C5. No overrun: from a well-formed state, any sequence of calls returns
    without a fault, so no [memcpy] into either overflow buffer went past its
    72 bytes, and afterwards both arrays still have 72 bytes and both [ptr]
    are at most 72. *)
Theorem buffers_never_overrun (st : comms) (cs : list call) :
  state_ok st -> Forall call_ok cs ->
  exists st',
    run st cs = Ok st'
    /\ Z.of_nat (length (data (can_read_buffer st'))) = ASM_BUFFER_SIZE
    /\ Z.of_nat (length (data (can_write_buffer st'))) = ASM_BUFFER_SIZE
    /\ 0 <= ptr (can_read_buffer st') <= ASM_BUFFER_SIZE
    /\ 0 <= ptr (can_write_buffer st') <= ASM_BUFFER_SIZE.
Proof using dlc_size dlc_envelope.
  intros Hst Hcs. destruct (run_ok cs st Hst Hcs) as (st' & Hrun & Hst').
  exists st'. destruct Hst' as ((Hrl & Hrp & _) & Hri & (Hwl & Hwp & Hwt) & Hwi & _).
  unfold read_inv, write_inv, ASM_BUFFER_SIZE in *.
  splits; try assumption; try lia.
  destruct (Z_lt_le_dec 0 (ptr (can_write_buffer st'))) as [Hpos|]; [|lia].
  pose proof (Hwi Hpos).
  pose proof (frame_len_range (byte0 (data (can_write_buffer st')))). lia.
Qed.

(** C2. Read-side chunking invariance: with nothing owed from before, reads
    into arrays of any sizes (each at least 1) that together take the whole
    serialization of the queue all return, and the chunks they return,
    concatenated, are the serialization of the queued frames in pop order;
    the queue is then empty and nothing is owed. *)
Theorem read_chunking_invariance (st : comms) (outs : list (list uint8_t)) :
  asm_ok (can_read_buffer st) -> ptr (can_read_buffer st) = 0 ->
  queue_ok (can_rx_q st) ->
  Forall (fun out => 1 <= Z.of_nat (length out) <= INT_MAX) outs ->
  Z.of_nat (length (serialize (can_rx_q st))) <= capacity outs ->
  exists st' chunks,
    read_all st outs = Ok (st', chunks)
    /\ concat chunks = serialize (can_rx_q st)
    /\ length chunks = length outs
    /\ owed st' = [].
Proof using dlc_size dlc_envelope.
  intros Hok Hptr Hq Houts Hcap.
  assert (Hinv : read_inv (can_read_buffer st))
    by (unfold read_inv, ASM_BUFFER_SIZE; lia).
  assert (Houts' : Forall (fun out => Z.of_nat (length out) <= INT_MAX) outs).
  { eapply Forall_impl; [|exact Houts]. cbn beta. intros; lia. }
  destruct (read_all_stream outs st Hok Hinv Hq Houts')
    as (st' & rs & Hrun & Hcat & Howed & Hlen & _).
  assert (Ho : owed st = serialize (can_rx_q st)).
  { unfold owed. rewrite Hptr. reflexivity. }
  rewrite Ho in *. exists st', rs. splits; try assumption.
  - rewrite Hcat. apply firstn_all2. lia.
  - rewrite Howed. apply skipn_all2. lia.
Qed.


(** C6. Read-side capacity bound and partial frames: a read returns,
    returns some [n] between 0 and [max_len], and changes the destination in
    its first [n] bytes only; and when, after the bytes owed from before and
    the frames [fits], the next frame [p] does not fit, the destination is
    filled to [max_len] with the part of [p] that fits, the part cut off is
    in the overflow buffer with [ptr] its length, and the queue keeps
    everything after [p]. *)
Theorem read_capacity_and_partial_frame (st : comms) (out : list uint8_t) (max_len : Z) :
  asm_ok (can_read_buffer st) -> read_inv (can_read_buffer st) ->
  queue_ok (can_rx_q st) ->
  0 <= max_len <= INT_MAX -> max_len <= Z.of_nat (length out) ->
  exists st' out' n,
    comms_can_read st out max_len = Ok (st', out', n)
    /\ 0 <= n <= max_len
    /\ length out' = length out
    /\ skipn (Z.to_nat n) out' = skipn (Z.to_nat n) out
    /\ firstn (Z.to_nat n) out' = firstn (Z.to_nat n) (owed st)
    /\ (forall fits p rest,
          can_rx_q st = fits ++ p :: rest ->
          let done := ptr (can_read_buffer st) + Z.of_nat (length (serialize fits)) in
          done < max_len < done + frame_len (byte0 p) ->
          n = max_len
          /\ firstn (Z.to_nat max_len) out'
             = firstn (Z.to_nat (ptr (can_read_buffer st))) (data (can_read_buffer st))
               ++ serialize fits ++ firstn (Z.to_nat (max_len - done)) (wire p)
          /\ ptr (can_read_buffer st') = frame_len (byte0 p) - (max_len - done)
          /\ firstn (Z.to_nat (ptr (can_read_buffer st'))) (data (can_read_buffer st'))
             = skipn (Z.to_nat (max_len - done)) (wire p)
          /\ can_rx_q st' = rest).
Proof using dlc_size dlc_envelope.
  intros Hok Hinv Hq Hmax Hout.
  destruct (read_step st out max_len Hok Hinv Hq Hmax Hout)
    as (st' & out' & n & Hrun & Hpost).
  destruct Hpost as (Hn & Hout' & _).
  exists st', out', n.
  assert (Hnn : Z.to_nat n = length (firstn (Z.to_nat n) (owed st)))
    by (rewrite length_firstn; lia).
  assert (Hfirst : firstn (Z.to_nat n) out' = firstn (Z.to_nat n) (owed st)).
  { rewrite Hout'. apply firstn_prefix. exact Hnn. }
  splits; try assumption.
  - lia.
  - lia.
  - rewrite Hout', length_app, length_firstn, length_skipn. lia.
  - rewrite Hout'. rewrite (skipn_prefix _ _ 0%nat) by lia. reflexivity.
  - intros fits p rest Hshape done [Hlo Hhi].
    destruct (read_cut st out max_len fits p rest Hok Hinv Hq Hmax Hout Hshape Hlo Hhi)
      as (st2 & out2 & n2 & Hrun2 & Hrest & Hptr' & Hkeep).
    rewrite Hrun in Hrun2. injection Hrun2 as <- <- <-.
    destruct Hok as (Hlen & Hp & _). unfold read_inv, ASM_BUFFER_SIZE in *.
    inversion Hq as [|]; [rewrite Hshape in *; now destruct fits|].
    assert (Hsz : Z.of_nat (length (owed st))
                  = done + Z.of_nat (length (wire p)) + Z.of_nat (length (serialize rest))).
    { unfold owed. rewrite Hshape. unfold serialize.
      rewrite map_app, concat_app. cbn [map concat].
      rewrite !length_app, length_firstn. subst done. unfold serialize. lia. }
    assert (Hwp : Z.of_nat (length (wire p)) = frame_len (byte0 p)).
    { apply wire_length. rewrite Hshape in Hq. apply Forall_app in Hq as [_ Hq].
      now inversion Hq. }
    assert (Hnm : n = max_len) by lia.
    splits; try assumption;
      [| rewrite Hptr'; subst done; lia | rewrite Hkeep; subst done; do 2 f_equal; lia].
    rewrite <- Hnm at 1. rewrite Hfirst, Hnm. unfold owed. rewrite Hshape.
    unfold serialize. rewrite map_app, concat_app. cbn [map concat].
    fold (serialize fits). fold (serialize rest).
    set (P := firstn (Z.to_nat (ptr (can_read_buffer st))) (data (can_read_buffer st))).
    assert (HP : Z.of_nat (length P) = ptr (can_read_buffer st))
      by (subst P; rewrite length_firstn; lia).
    rewrite !app_assoc.
    rewrite firstn_app.
    rewrite (firstn_app _ (P ++ serialize fits)).
    rewrite (firstn_all2 (P ++ serialize fits)) by (rewrite length_app; lia).
    rewrite !length_app.
    replace (Z.to_nat max_len - (length P + length (serialize fits) + length (wire p)))%nat
      with 0%nat by lia.
    cbn [firstn]. rewrite app_nil_r. subst done. do 2 f_equal. lia.
Qed.

(** C7. Reset: [comms_can_reset] zeroes [ptr] and [tail_size] of both
    buffers and changes nothing else; doing it twice is doing it once, and
    on buffers that are already empty it does nothing. *)
Theorem reset_idempotent (st : comms) :
  ptr (can_read_buffer (comms_can_reset st)) = 0
  /\ tail_size (can_read_buffer (comms_can_reset st)) = 0
  /\ ptr (can_write_buffer (comms_can_reset st)) = 0
  /\ tail_size (can_write_buffer (comms_can_reset st)) = 0
  /\ data (can_read_buffer (comms_can_reset st)) = data (can_read_buffer st)
  /\ data (can_write_buffer (comms_can_reset st)) = data (can_write_buffer st)
  /\ can_rx_q (comms_can_reset st) = can_rx_q st
  /\ can_tx_q (comms_can_reset st) = can_tx_q st
  /\ sent (comms_can_reset st) = sent st
  /\ resumed (comms_can_reset st) = resumed st
  /\ comms_can_reset (comms_can_reset st) = comms_can_reset st
  /\ (ptr (can_read_buffer st) = 0 -> tail_size (can_read_buffer st) = 0 ->
      ptr (can_write_buffer st) = 0 -> tail_size (can_write_buffer st) = 0 ->
      comms_can_reset st = st).
Proof.
  destruct st as [[rp rt rd] [wp wt wd] q tx sn rs]. unfold comms_can_reset. fields.
  splits; try reflexivity.
  intros -> -> -> ->. reflexivity.
Qed.

(** C8. Read starvation: with an empty queue and nothing owed, a read with
    capacity 64 returns 0 and leaves the state and the destination as they
    were. *)
Theorem read_starvation (st : comms) (out : list uint8_t) :
  can_rx_q st = [] -> ptr (can_read_buffer st) = 0 ->
  comms_can_read st out 64 = Ok (st, out, 0).
Proof.
  destruct st as [[rp rt rd] wb q tx sn rs]. cbn [can_rx_q can_read_buffer ptr].
  intros -> ->. reflexivity.
Qed.

(** C9. Admission check: a write returns after it has consumed its whole
    input (the frames [fs] it completed are submitted, the rest [r] is kept,
    complete or not), and it ends with one admission check on the pool as
    the submissions left it: the resume calls of this write contain USB
    exactly when the pool has at least the USB burst size free, and SPI
    exactly when it has at least the SPI burst size free. *)
Theorem admission_check_after_write (st : comms) (src : list uint8_t) :
  asm_ok (can_write_buffer st) -> write_inv (can_write_buffer st) ->
  Z.of_nat (length src) <= INT_MAX ->
  exists st' fs r new,
    comms_can_write st src (Z.of_nat (length src)) = Ok st'
    /\ firstn (Z.to_nat (ptr (can_write_buffer st))) (data (can_write_buffer st)) ++ src
       = concat fs ++ r
    /\ holds_partial (can_write_buffer st') r
    /\ sent st' = sent st ++ map submitted fs
    /\ can_tx_q st' = pool_after fs (can_tx_q st)
    /\ resumed st' = resumed st ++ new
    /\ (In USB new <-> MAX_CAN_MSGS_PER_USB_BULK_TRANSFER <= free_slots (can_tx_q st'))
    /\ (In SPI new <-> MAX_CAN_MSGS_PER_SPI_BULK_TRANSFER <= free_slots (can_tx_q st'))
    /\ new = signals (can_tx_q st').
Proof using dlc_size dlc_envelope.
  intros Hok Hinv Hmax.
  destruct (write_step st src Hok Hinv Hmax) as (st' & fs & r & Hrun & Hpost).
  destruct Hpost as (Heq & _ & _ & _ & _ & Hsent & Hpool & Hres & _ & Hp).
  exists st', fs, r, (signals (can_tx_q st')).
  splits; try assumption; try reflexivity; unfold signals;
    destruct (Z.leb_spec MAX_CAN_MSGS_PER_USB_BULK_TRANSFER (free_slots (can_tx_q st')));
    destruct (Z.leb_spec MAX_CAN_MSGS_PER_SPI_BULK_TRANSFER (free_slots (can_tx_q st')));
    cbn [app In]; intuition (try discriminate; try lia).
Qed.

(** ** Further properties of the engine *)

(** *** Edge cases *)

(** X1. A read into a destination of capacity 0 returns 0 and changes
    neither the state nor the destination, also when a tail is owed: no
    packet is popped and the tail stays where it is. *)
Theorem read_zero_capacity (st : comms) (out : list uint8_t) :
  asm_ok (can_read_buffer st) -> read_inv (can_read_buffer st) ->
  comms_can_read st out 0 = Ok (st, out, 0).
Proof.
  intros (Hlen & Hptr & Htail) Hinv. unfold read_inv, ASM_BUFFER_SIZE in *.
  destruct st as [[rp rt rd] wb q tx sn rs]. cbn [can_read_buffer ptr tail_size data] in *.
  unfold comms_can_read. cbn [can_read_buffer ptr tail_size data can_rx_q].
  destruct (Z.ltb_spec 0 rp) as [Hpos|Hzero].
  - change (uint32 (0 - 0)) with 0. rewrite Z.min_l by lia.
    rewrite memcpy_front by lia. cbn [bind].
    rewrite Z.sub_0_r, (uint32_small rp) by lia.
    rewrite memcpy_self_front by lia. cbn [bind ptr].
    change (Z.to_nat 0) with 0%nat. cbn [firstn skipn app].
    rewrite firstn_skipn.
    destruct (Z.eqb_spec rp 0); [lia|]. reflexivity.
  - assert (rp = 0) as -> by lia. cbn [bind ptr Z.eqb].
    destruct q; reflexivity.
Qed.

(** X6. A write of no bytes changes nothing but for the admission check it
    ends with: a frame in assembly stays in assembly. *)
Theorem write_nothing (st : comms) (src : list uint8_t) :
  asm_ok (can_write_buffer st) -> assembling (can_write_buffer st) ->
  comms_can_write st src 0 = Ok (refresh_can_tx_slots_available st).
Proof using dlc_size dlc_envelope.
  intros (Hlen & Hptr & Htail) Hasm. unfold assembling, ASM_BUFFER_SIZE in *.
  pose proof (frame_len_range (byte0 (data (can_write_buffer st)))) as Hfl.
  destruct st as [rb [wp wt wd] q tx sn rs]. cbn [can_write_buffer ptr tail_size data] in *.
  unfold comms_can_write. cbn [can_write_buffer ptr tail_size data].
  change (uint32 (0 - 0)) with 0.
  destruct (Z.eqb_spec wp 0) as [->|Hne]; cbn [negb bind].
  - reflexivity.
  - destruct (Z.leb_spec wt 0) as [Hle|Hgt]; [lia|].
    rewrite memcpy_ok by lia. cbn [bind].
    rewrite Z.add_0_r, Z.sub_0_r, (uint32_small wp), (uint32_small wt) by lia.
    change (Z.to_nat 0) with 0%nat. cbn [firstn skipn app].
    rewrite firstn_skipn. reflexivity.
Qed.

(** *** Full chunks *)

Lemma serialize_nil (q : list CANPacket_t) :
  queue_ok q -> serialize q = [] -> q = [].
Proof using dlc_size dlc_envelope.
  intros Hq Hs. destruct q as [|p q]; [reflexivity|]. exfalso.
  inversion Hq as [|? ? Hp _]; subst.
  pose proof (wire_length p Hp) as Hw. pose proof (frame_len_range (byte0 p)).
  change (serialize (p :: q)) with (wire p ++ serialize q) in Hs.
  apply app_eq_nil in Hs as [Hs _]. rewrite Hs in Hw. cbn [length] in Hw. lia.
Qed.

(** X2. Chunks are always the given length, except the last one: a read
    returns [max_len] bytes whenever that many are owed, and a read that
    returns fewer has handed out everything, so that the queue and the
    overflow buffer are empty after it. *)
Theorem read_full_unless_drained (st : comms) (out : list uint8_t) (max_len : Z) :
  asm_ok (can_read_buffer st) -> read_inv (can_read_buffer st) ->
  queue_ok (can_rx_q st) ->
  0 <= max_len <= INT_MAX -> max_len <= Z.of_nat (length out) ->
  exists st' out' n,
    comms_can_read st out max_len = Ok (st', out', n)
    /\ n = Z.min max_len (Z.of_nat (length (owed st)))
    /\ (n < max_len ->
        can_rx_q st' = [] /\ ptr (can_read_buffer st') = 0
        /\ firstn (Z.to_nat n) out' = owed st).
Proof using dlc_size dlc_envelope.
  intros Hok Hinv Hq Hmax Hout.
  destruct (read_step st out max_len Hok Hinv Hq Hmax Hout)
    as (st' & out' & n & Hrun & Hpost).
  destruct Hpost as (Hn & Hout' & Howed & Hok' & Hinv' & Hq' & _).
  exists st', out', n. splits; try assumption.
  intros Hshort.
  assert (Hall : Z.to_nat n = length (owed st)) by lia.
  rewrite Hall, skipn_all in Howed. unfold owed in Howed.
  apply app_eq_nil in Howed as [Htailb Hser].
  destruct Hok' as (Hlen' & Hptr' & _). unfold read_inv, ASM_BUFFER_SIZE in *.
  splits.
  - now apply serialize_nil.
  - apply (f_equal (@length _)) in Htailb. rewrite length_firstn in Htailb.
    cbn [length] in Htailb. lia.
  - rewrite Hout', Hall, firstn_all. now apply firstn_prefix.
Qed.

(** *** Reads among other calls *)

Lemma owed_same (st st' : comms) :
  can_read_buffer st' = can_read_buffer st -> can_rx_q st' = can_rx_q st ->
  owed st' = owed st.
Proof. unfold owed. now intros -> ->. Qed.

Lemma step_out_owed (st : comms) (c : call) :
  state_ok st -> call_ok c -> is_reset c = false ->
  exists st' bytes,
    step_out st c = Ok (st', bytes)
    /\ state_ok st'
    /\ bytes ++ owed st' = owed st ++ serialize (received [c]).
Proof using dlc_size dlc_envelope.
  intros Hst Hc Hnr. pose proof Hst as (Hrb & Hri & Hwb & Hwi & Hq).
  destruct (step_ok st c Hst Hc) as (st1 & Hstep & Hst1).
  destruct c as [out max_len | src len | | p]; cbn [step step_out call_ok is_reset] in *;
    try discriminate.
  - destruct Hc as [Hm Ho].
    destruct (read_step st out max_len Hrb Hri Hq Hm Ho) as (st' & out' & n & Hrun & Hpost).
    destruct Hpost as (Hn & Hout' & Howed & _).
    rewrite Hrun in *. cbn [bind] in *. injection Hstep as <-.
    exists st', (firstn (Z.to_nat n) out'). splits; try assumption; [reflexivity|].
    cbn [received flat_map serialize map concat]. rewrite app_nil_r.
    rewrite Hout', Howed.
    rewrite firstn_prefix by (rewrite length_firstn; lia).
    apply firstn_skipn.
  - destruct Hc as [-> Hm].
    destruct (write_step st src Hwb Hwi Hm) as (st' & fs & r & Hrun & Hpost).
    destruct Hpost as (_ & _ & _ & Hrb' & Hq' & _).
    rewrite Hrun in *. cbn [bind]. injection Hstep as <-.
    exists st', []. splits; try assumption; [reflexivity|].
    cbn [received flat_map serialize map concat app]. rewrite app_nil_r.
    now apply owed_same.
  - injection Hstep as <-. exists (set_rx_q st (can_rx_q st ++ [p])), [].
    splits; try assumption; [reflexivity|].
    unfold owed, serialize. fields. cbn [received flat_map app].
    rewrite map_app, concat_app. now rewrite app_assoc.
Qed.

Lemma received_cons (c : call) (cs : list call) :
  serialize (received (c :: cs)) = serialize (received [c]) ++ serialize (received cs).
Proof.
  unfold received, serialize. cbn [flat_map]. rewrite app_nil_r.
  now rewrite map_app, concat_app.
Qed.

(** X3. First in, first out, among other calls: over any sequence of reads,
    writes and receptions without a reset, the bytes handed to the host
    followed by the bytes still owed are the bytes owed at the start followed
    by the serialization of the packets received meanwhile, in the order of
    their arrival. *)
Theorem reads_deliver_in_arrival_order (cs : list call) :
  forall st : comms,
  state_ok st -> Forall call_ok cs ->
  Forall (fun c => is_reset c = false) cs ->
  exists st' bytes,
    run_out st cs = Ok (st', bytes)
    /\ state_ok st'
    /\ bytes ++ owed st' = owed st ++ serialize (received cs).
Proof using dlc_size dlc_envelope.
  induction cs as [|c cs IH]; intros st Hst Hcs Hnr.
  - exists st, []. cbn [run_out received flat_map serialize map concat app].
    rewrite app_nil_r. now splits.
  - inversion Hcs as [|? ? Hc Hcs']; subst. inversion Hnr as [|? ? Hn Hnr']; subst.
    destruct (step_out_owed st c Hst Hc Hn) as (st1 & b1 & Hstep & Hst1 & Hb1).
    destruct (IH st1 Hst1 Hcs' Hnr')
      as (st2 & b2 & Hrun & Hst2 & Hb2).
    exists st2, (b1 ++ b2). cbn [run_out]. rewrite Hstep. cbn [bind].
    rewrite Hrun. cbn [bind]. splits; try assumption; [reflexivity|].
    rewrite received_cons, <- app_assoc, Hb2, !app_assoc, Hb1. reflexivity.
Qed.

(** *** The two directions do not interfere *)





(** *** Writes as a stream *)

(** A stream is cut into frames and a remainder in one way only. *)
Lemma frames_unique_rem (fs : list (list uint8_t)) :
  forall gs r r',
  Forall wire_frame fs -> Forall wire_frame gs -> remainder r -> remainder r' ->
  concat fs ++ r = concat gs ++ r' -> fs = gs /\ r = r'.
Proof using dlc_size dlc_envelope.
  assert (Hshort : forall g gs x r,
    wire_frame g -> remainder r -> r = g ++ concat gs ++ x -> False).
  { intros g gs x r Hg Hr Heq. pose proof (wire_frame_nonempty _ Hg) as Hgne.
    destruct Hr as [-> | [Hne Hlt]].
    - symmetry in Heq. apply app_eq_nil in Heq as [? _]. contradiction.
    - rewrite Heq in Hlt. rewrite byte0_app, !length_app in Hlt by assumption.
      unfold wire_frame in Hg. lia. }
  induction fs as [|f fs IH]; intros gs r r' Hfs Hgs Hr Hr' Heq.
  - destruct gs as [|g gs]; [now split|]. exfalso.
    inversion Hgs as [|? ? Hg _]; subst. cbn [concat app] in Heq.
    rewrite <- app_assoc in Heq. exact (Hshort g gs r' r Hg Hr Heq).
  - inversion Hfs as [|? ? Hf Hfs']; subst.
    destruct gs as [|g gs].
    + exfalso. cbn [concat app] in Heq. rewrite <- app_assoc in Heq.
      symmetry in Heq. exact (Hshort f fs r r' Hf Hr' Heq).
    + inversion Hgs as [|? ? Hg Hgs']; subst.
      pose proof (wire_frame_nonempty _ Hf) as Hfne.
      pose proof (wire_frame_nonempty _ Hg) as Hgne.
      cbn [concat] in Heq. rewrite <- !app_assoc in Heq.
      assert (Hb : byte0 f = byte0 g).
      { rewrite <- (byte0_app f (concat fs ++ r)), Heq by assumption. now apply byte0_app. }
      apply app_same_length in Heq as [-> Heq].
      * destruct (IH gs r r' Hfs' Hgs' Hr Hr' Heq) as [-> ->]. now split.
      * unfold wire_frame in Hf, Hg. rewrite Hb in Hf. lia.
Qed.

Lemma assembling_holds (wb : asm_buffer) :
  asm_ok wb -> assembling wb ->
  holds_partial wb (buffered wb) /\ remainder (buffered wb) /\ write_inv wb.
Proof using dlc_size dlc_envelope.
  intros (Hlen & Hptr & Htail) Hasm.
  unfold assembling, holds_partial, buffered, write_inv, ASM_BUFFER_SIZE in *.
  pose proof (frame_len_range (byte0 (data wb))) as Hfl.
  assert (Hl : Z.of_nat (length (firstn (Z.to_nat (ptr wb)) (data wb))) = ptr wb).
  { rewrite length_firstn. destruct (Z_lt_le_dec 0 (ptr wb)) as [Hp|]; [|lia].
    destruct (Hasm Hp). lia. }
  splits.
  - now rewrite Hl.
  - replace (length (firstn (Z.to_nat (ptr wb)) (data wb))) with (Z.to_nat (ptr wb))
      by lia.
    reflexivity.
  - intros Hne. destruct (Z_lt_le_dec 0 (ptr wb)) as [Hp|Hz].
    + destruct (Hasm Hp) as [_ ->]. f_equal. symmetry. apply byte0_firstn. lia.
    + exfalso. apply Hne. replace (Z.to_nat (ptr wb)) with 0%nat by lia. reflexivity.
  - destruct (Z_lt_le_dec 0 (ptr wb)) as [Hp|Hz].
    + right. destruct (Hasm Hp) as [Ht Hs]. split.
      * intros He. rewrite He in Hl. cbn [length] in Hl. lia.
      * rewrite Hl, byte0_firstn by lia. lia.
    + left. replace (Z.to_nat (ptr wb)) with 0%nat by lia. reflexivity.
  - intros Hp. now destruct (Hasm Hp).
Qed.

(** X5. What a sequence of writes does depends on the stream only, not on
    how it is cut into calls nor on what lies in the buffer behind the bytes
    in assembly: two states and two sequences of chunks with the same bytes
    in assembly followed by the same input submit the same frames and end
    with the same bytes in assembly and the same counters. *)
Theorem writes_depend_on_stream_only (st1 st2 : comms) (chunks1 chunks2 : list (list uint8_t)) :
  asm_ok (can_write_buffer st1) -> assembling (can_write_buffer st1) ->
  asm_ok (can_write_buffer st2) -> assembling (can_write_buffer st2) ->
  Forall (fun c => Z.of_nat (length c) <= INT_MAX) chunks1 ->
  Forall (fun c => Z.of_nat (length c) <= INT_MAX) chunks2 ->
  buffered (can_write_buffer st1) ++ concat chunks1
  = buffered (can_write_buffer st2) ++ concat chunks2 ->
  exists st1' st2' fs,
    write_all st1 chunks1 = Ok st1'
    /\ write_all st2 chunks2 = Ok st2'
    /\ sent st1' = sent st1 ++ map submitted fs
    /\ sent st2' = sent st2 ++ map submitted fs
    /\ buffered (can_write_buffer st1') = buffered (can_write_buffer st2')
    /\ ptr (can_write_buffer st1') = ptr (can_write_buffer st2')
    /\ (0 < ptr (can_write_buffer st1') ->
        tail_size (can_write_buffer st1') = tail_size (can_write_buffer st2')).
Proof using dlc_size dlc_envelope.
  intros Hok1 Ha1 Hok2 Ha2 Hc1 Hc2 Heq.
  destruct (assembling_holds _ Hok1 Ha1) as (Hp1 & Hr1 & _).
  destruct (assembling_holds _ Hok2 Ha2) as (Hp2 & Hr2 & _).
  destruct (write_all_stream chunks1 st1 _ Hok1 Hp1 Hr1 Hc1)
    as (st1' & fs1 & r1 & Hrun1 & Hs1 & Hfs1 & Hrem1 & Hsent1 & _ & _ & _ & _ & Hh1).
  destruct (write_all_stream chunks2 st2 _ Hok2 Hp2 Hr2 Hc2)
    as (st2' & fs2 & r2 & Hrun2 & Hs2 & Hfs2 & Hrem2 & Hsent2 & _ & _ & _ & _ & Hh2).
  rewrite Heq, Hs2 in Hs1.
  destruct (frames_unique_rem fs2 fs1 r2 r1 Hfs2 Hfs1 Hrem2 Hrem1 Hs1) as [-> ->].
  exists st1', st2', fs1.
  destruct (holds_partial_inv _ _ Hh1) as [_ Hb1].
  destruct (holds_partial_inv _ _ Hh2) as [_ Hb2].
  destruct Hh1 as (Hptr1 & _ & Hsum1), Hh2 as (Hptr2 & _ & Hsum2).
  unfold buffered. splits; try assumption; try congruence.
  intros Hpos. assert (Hne : r1 <> []) by (intros ->; cbn [length] in Hptr1; lia).
  specialize (Hsum1 Hne). specialize (Hsum2 Hne). lia.
Qed.

Lemma skipn_repeat_zero (n k : nat) :
  skipn k (repeat x00 n) = repeat x00 (n - k).
Proof.
  revert k. induction n as [|n IH]; intros [|k]; cbn [repeat skipn Nat.sub]; auto.
Qed.

Lemma bus_range (p : CANPacket_t) : 0 <= bus p <= 7.
Proof.
  unfold bus. change 7 with (Z.ones 3). rewrite Z.land_ones by lia.
  change (Z.ones 3) with 7. change (2 ^ 3) with 8.
  pose proof (Z.mod_pos_bound (Z.shiftr (byte_val (byte0 p)) 1) 8). lia.
Qed.

(** X7. Every packet a write passes to [can_send] is a whole packet object
    whose bytes behind the frame are zero, whatever the overflow buffer held
    there, and comes with the bus number of bits 3..1 of its first byte. *)
Theorem submitted_packets_are_clean (st : comms) (src : list uint8_t) :
  asm_ok (can_write_buffer st) -> write_inv (can_write_buffer st) ->
  Z.of_nat (length src) <= INT_MAX ->
  exists st' new,
    comms_can_write st src (Z.of_nat (length src)) = Ok st'
    /\ sent st' = sent st ++ new
    /\ Forall (fun s =>
          Z.of_nat (length (fst s)) = CANPACKET_SIZE
          /\ skipn (Z.to_nat (frame_len (byte0 (fst s)))) (fst s)
             = repeat x00 (Z.to_nat (CANPACKET_SIZE - frame_len (byte0 (fst s))))
          /\ snd s = Z.land (Z.shiftr (byte_val (byte0 (fst s))) 1) 7
          /\ 0 <= snd s <= 7) new.
Proof using dlc_size dlc_envelope.
  intros Hok Hinv Hmax.
  destruct (write_step st src Hok Hinv Hmax) as (st' & fs & r & Hrun & Hpost).
  destruct Hpost as (_ & Hfs & _ & _ & _ & Hsent & _).
  exists st', (map submitted fs). splits; try assumption.
  clear - Hfs dlc_size dlc_envelope. induction Hfs as [|f fs Hf _ IH]; cbn [map]; constructor;
    [|exact IH].
  pose proof (wire_frame_nonempty f Hf) as Hne.
  pose proof (frame_len_range (byte0 f)) as Hfl. unfold wire_frame in Hf.
  unfold submitted, to_packet, CANPACKET_SIZE. cbn [fst snd].
  rewrite byte0_app by assumption. splits.
  - rewrite length_app, length_skipn. unfold zero_packet, CANPACKET_SIZE.
    rewrite repeat_length. lia.
  - rewrite (skipn_prefix _ _ 0%nat) by lia. cbn [skipn].
    unfold zero_packet, CANPACKET_SIZE. rewrite skipn_repeat_zero. f_equal. lia.
  - unfold bus. now rewrite byte0_app.
  - apply bus_range.
  - apply bus_range.
Qed.

(** X8. A write calls [can_send] at most once per six bytes it has at hand:
    six times the number of frames it submits is at most the bytes in
    assembly plus the bytes written. *)
Theorem submissions_bounded (st : comms) (src : list uint8_t) :
  asm_ok (can_write_buffer st) -> write_inv (can_write_buffer st) ->
  Z.of_nat (length src) <= INT_MAX ->
  exists st',
    comms_can_write st src (Z.of_nat (length src)) = Ok st'
    /\ (length (sent st) <= length (sent st'))%nat
    /\ CANPACKET_HEAD_SIZE * Z.of_nat (length (sent st') - length (sent st))
       <= ptr (can_write_buffer st) + Z.of_nat (length src).
Proof using dlc_size dlc_envelope.
  intros Hok Hinv Hmax.
  destruct (write_step st src Hok Hinv Hmax) as (st' & fs & r & Hrun & Hpost).
  destruct Hpost as (Heq & Hfs & _ & _ & _ & Hsent & _).
  exists st'. rewrite Hsent, length_app, length_map.
  destruct Hok as (Hlen & Hptr & Htail). unfold ASM_BUFFER_SIZE, write_inv in *.
  assert (Hcap : ptr (can_write_buffer st) <= 72).
  { destruct (Z_lt_le_dec 0 (ptr (can_write_buffer st))) as [Hp|]; [|lia].
    pose proof (Hinv Hp).
    pose proof (frame_len_range (byte0 (data (can_write_buffer st)))). lia. }
  apply (f_equal (@length _)) in Heq. rewrite !length_app, length_firstn in Heq.
  assert (Hsix : 6 * Z.of_nat (length fs) <= Z.of_nat (length (concat fs))).
  { clear - Hfs dlc_size dlc_envelope. induction Hfs as [|f fs Hf _ IH]; cbn [concat length]; [lia|].
    rewrite length_app. unfold wire_frame in Hf.
    pose proof (frame_len_range (byte0 f)). lia. }
  unfold CANPACKET_HEAD_SIZE. splits; [exact Hrun | lia | lia].
Qed.

(** X9. Exact fit: when the input is exactly what the frame in assembly
    still misses, the write submits that frame, made of the bytes in
    assembly followed by the input, and leaves the buffer empty with both
    counters at zero. *)
Theorem write_completes_frame (st : comms) (src : list uint8_t) :
  asm_ok (can_write_buffer st) -> assembling (can_write_buffer st) ->
  0 < ptr (can_write_buffer st) ->
  Z.of_nat (length src) = tail_size (can_write_buffer st) ->
  exists st',
    comms_can_write st src (Z.of_nat (length src)) = Ok st'
    /\ sent st' = sent st ++ [submitted (buffered (can_write_buffer st) ++ src)]
    /\ ptr (can_write_buffer st') = 0
    /\ tail_size (can_write_buffer st') = 0.
Proof using dlc_size dlc_envelope.
  intros Hok Hasm Hpos Hsrc. pose proof Hok as (Hlen & Hptr & Htail).
  destruct (Hasm Hpos) as [Ht Hsum].
  pose proof (frame_len_range (byte0 (data (can_write_buffer st)))) as Hfl.
  unfold ASM_BUFFER_SIZE, buffered in *.
  unfold comms_can_write. set (wb := can_write_buffer st) in *.
  destruct (Z.eqb_spec (ptr wb) 0); [lia|]. cbn [negb].
  rewrite Z.sub_0_r, (uint32_small (Z.of_nat (length src))) by lia.
  destruct (Z.leb_spec (tail_size wb) (Z.of_nat (length src))); [|lia].
  rewrite memcpy_ok by lia. cbn [bind].
  rewrite (uint32_small (ptr wb + tail_size wb)) by lia.
  change (Z.to_nat 0) with 0%nat. cbn [skipn].
  rewrite <- Hsrc, Nat2Z.id, firstn_all.
  set (P := firstn (Z.to_nat (ptr wb)) (data wb)).
  assert (HP : Z.of_nat (length P) = ptr wb) by (subst P; rewrite length_firstn; lia).
  rewrite memcpy_front
    by (unfold zero_packet, CANPACKET_SIZE; rewrite ?repeat_length, ?length_app, ?length_skipn; lia).
  cbn [bind]. change (Z.to_nat 0) with 0%nat. cbn [skipn].
  rewrite (app_assoc P src).
  replace (Z.to_nat (ptr wb + Z.of_nat (length src))) with (length (P ++ src))
    by (rewrite length_app; lia).
  rewrite to_packet_memcpy.
  rewrite write_loop_done by (rewrite Z.add_0_l, uint32_small; lia).
  cbn [bind]. rewrite refresh_fields.
  eexists. split; [reflexivity|]. fields. now splits.
Qed.

(** *** Read and write together *)

Lemma wire_is_frame (p : CANPacket_t) :
  Z.of_nat (length p) = CANPACKET_SIZE -> wire_frame (wire p).
Proof using dlc_size dlc_envelope.
  intros Hp. unfold wire_frame. rewrite (wire_length p Hp). f_equal.
  unfold wire. symmetry. apply byte0_firstn.
  pose proof (frame_len_range (byte0 p)). lia.
Qed.

Lemma read_all_chunks_fit (outs : list (list uint8_t)) :
  forall (st st' : comms) (rs : list (list uint8_t)),
  asm_ok (can_read_buffer st) -> read_inv (can_read_buffer st) ->
  queue_ok (can_rx_q st) ->
  Forall (fun out => Z.of_nat (length out) <= INT_MAX) outs ->
  read_all st outs = Ok (st', rs) ->
  Forall (fun c => Z.of_nat (length c) <= INT_MAX) rs.
Proof using dlc_size dlc_envelope.
  induction outs as [|out os IH]; intros st st' rs Hok Hinv Hq Hmax Hrun.
  - cbn [read_all] in Hrun. injection Hrun as <- <-. constructor.
  - inversion Hmax as [|? ? Ho Hos]; subst.
    destruct (read_step st out (Z.of_nat (length out)) Hok Hinv Hq)
      as (st1 & out' & n & Hrun1 & Hpost); [lia | lia |].
    destruct Hpost as (Hn & Hout' & _ & Hok1 & Hinv1 & Hq1 & _).
    cbn [read_all] in Hrun. rewrite Hrun1 in Hrun. cbn [bind] in Hrun.
    destruct (read_all st1 os) as [[st2 rs']|f] eqn:Hrun2; cbn [bind] in Hrun;
      [|discriminate].
    injection Hrun as <- <-. constructor.
    + rewrite length_firstn. lia.
    + exact (IH st1 st2 rs' Hok1 Hinv1 Hq1 Hos Hrun2).
Qed.

(** X10. Round trip: the chunks the read side hands out for a queue of
    packets, written as they come to a write side after its reset, make it
    submit one packet per queued packet, in order, each with the wire bytes
    of the queued one. *)
Theorem read_then_write_round_trip (st peer : comms) (outs : list (list uint8_t)) :
  asm_ok (can_read_buffer st) -> ptr (can_read_buffer st) = 0 ->
  queue_ok (can_rx_q st) ->
  Forall (fun out => 1 <= Z.of_nat (length out) <= INT_MAX) outs ->
  Z.of_nat (length (serialize (can_rx_q st))) <= capacity outs ->
  Z.of_nat (length (data (can_write_buffer peer))) = ASM_BUFFER_SIZE ->
  exists st' chunks peer',
    read_all st outs = Ok (st', chunks)
    /\ write_all (comms_can_reset peer) chunks = Ok peer'
    /\ sent peer' = sent peer ++ map (fun p => submitted (wire p)) (can_rx_q st)
    /\ map (fun s => wire (fst s)) (map (fun p => submitted (wire p)) (can_rx_q st))
       = map wire (can_rx_q st)
    /\ ptr (can_write_buffer peer') = 0.
Proof using dlc_size dlc_envelope.
  intros Hok Hptr Hq Houts Hcap Hd.
  assert (Hinv : read_inv (can_read_buffer st))
    by (unfold read_inv, ASM_BUFFER_SIZE; lia).
  assert (Houts' : Forall (fun out => Z.of_nat (length out) <= INT_MAX) outs).
  { eapply Forall_impl; [|exact Houts]. cbn beta. intros; lia. }
  destruct (read_all_stream outs st Hok Hinv Hq Houts')
    as (st' & rs & Hrun & Hcat & _).
  pose proof (read_all_chunks_fit outs st st' rs Hok Hinv Hq Houts' Hrun) as Hfit.
  assert (Ho : owed st = serialize (can_rx_q st)).
  { unfold owed. rewrite Hptr. reflexivity. }
  rewrite Ho, firstn_all2 in Hcat by lia.
  destruct (reset_holds_nothing peer Hd) as [Hokp Hp].
  destruct (write_all_stream rs (comms_can_reset peer) [] Hokp Hp (or_introl eq_refl) Hfit)
    as (peer' & fs & r & Hrunw & Heq & Hfs & Hr & Hsent & _ & _ & _ & _ & Hp').
  cbn [app] in Heq. rewrite Hcat in Heq.
  assert (Hwires : Forall wire_frame (map wire (can_rx_q st))).
  { apply Forall_map. eapply Forall_impl; [|exact Hq]. intros p. apply wire_is_frame. }
  destruct (frames_unique (map wire (can_rx_q st)) fs r Hwires Hfs Hr Heq) as [<- ->].
  exists st', rs, peer'. rewrite map_map in Hsent. splits; try assumption.
  - rewrite map_map. cbn [submitted fst]. apply map_ext_in. intros p Hin.
    apply wire_to_packet. rewrite Forall_forall in Hwires. apply Hwires.
    now apply in_map.
  - now destruct Hp' as [-> _].
Qed.

(** When the frames [fits] fill the destination exactly, the loop pops them
    and no more, and keeps nothing. *)
Lemma read_loop_fit (fits : list CANPacket_t) :
  forall (rest : list CANPacket_t) (rb : asm_buffer) (out : list uint8_t) (pos max_len : Z),
  queue_ok fits ->
  0 <= pos -> max_len <= INT_MAX -> max_len <= Z.of_nat (length out) ->
  pos + Z.of_nat (length (serialize fits)) = max_len ->
  exists out', read_loop (fits ++ rest) rb out pos max_len = Ok (rest, rb, out', max_len).
Proof using dlc_size dlc_envelope.
  unfold INT_MAX.
  induction fits as [|f fits IH]; intros rest rb out pos max_len Hq Hpos Hmax Hout Hsum.
  - cbn [serialize map concat length Z.of_nat app] in *. assert (pos = max_len) as -> by lia.
    exists out. destruct rest; cbn [read_loop];
      destruct (Z.ltb_spec max_len max_len); (lia || reflexivity).
  - cbn [app]. apply Forall_cons_iff in Hq as [Hf Hq'].
    pose proof (frame_len_range (byte0 f)) as Hfl.
    pose proof (wire_length f Hf) as Hw. unfold CANPACKET_SIZE in Hf.
    change (serialize (f :: fits)) with (wire f ++ serialize fits) in Hsum.
    rewrite length_app in Hsum.
    cbn [read_loop]. destruct (Z.ltb_spec pos max_len); [|lia].
    rewrite read_lookup. cbn [bind]. rewrite pckt_len_eq.
    rewrite (uint32_small (pos + frame_len (byte0 f))) by lia.
    destruct (Z.leb_spec (pos + frame_len (byte0 f)) max_len); [|lia].
    rewrite memcpy_ok by lia. cbn [bind].
    match goal with |- context [read_loop _ _ ?o _ _] => set (out1 := o) end.
    apply IH; try assumption; try lia.
    subst out1. rewrite !length_app, !length_firstn, !length_skipn. lia.
Qed.

(** X11. Exact fit: when the bytes owed from before and the frames [fits]
    at the front of the queue fill the destination exactly, the read returns
    [max_len], pops exactly [fits] and leaves the overflow buffer empty. *)
Theorem read_exact_fit (st : comms) (out : list uint8_t) (max_len : Z)
  (fits rest : list CANPacket_t) :
  asm_ok (can_read_buffer st) -> read_inv (can_read_buffer st) ->
  queue_ok (can_rx_q st) ->
  max_len <= INT_MAX -> max_len <= Z.of_nat (length out) ->
  can_rx_q st = fits ++ rest ->
  ptr (can_read_buffer st) + Z.of_nat (length (serialize fits)) = max_len ->
  exists st' out',
    comms_can_read st out max_len = Ok (st', out', max_len)
    /\ can_rx_q st' = rest
    /\ ptr (can_read_buffer st') = 0
    /\ firstn (Z.to_nat max_len) out'
       = firstn (Z.to_nat (ptr (can_read_buffer st))) (data (can_read_buffer st))
         ++ serialize fits.
Proof using dlc_size dlc_envelope.
  intros Hok Hinv Hq Hmax Hout Hshape Hsum. pose proof Hok as (Hlen & Hptr & Htail).
  assert (Hm : 0 <= max_len <= INT_MAX) by lia.
  destruct (read_step st out max_len Hok Hinv Hq Hm Hout)
    as (st0 & out0 & n0 & Hrun0 & Hpost).
  destruct Hpost as (Hn0 & Hout0 & _).
  assert (Hqf : queue_ok fits).
  { rewrite Hshape in Hq. now apply Forall_app in Hq as [? _]. }
  unfold read_inv, ASM_BUFFER_SIZE in Hlen, Hinv. pose proof Hmax as Hmax'.
  unfold INT_MAX in Hmax'.
  assert (Hstate : exists st' out' n,
    comms_can_read st out max_len = Ok (st', out', n)
    /\ can_rx_q st' = rest /\ ptr (can_read_buffer st') = 0).
  { unfold comms_can_read. set (rb := can_read_buffer st) in *. rewrite Hshape.
    destruct (Z.ltb_spec 0 (ptr rb)) as [Hpos|Hzero].
    - rewrite Z.sub_0_r, (uint32_small max_len) by lia.
      rewrite Z.min_r by lia.
      rewrite memcpy_front by lia. cbn [bind].
      rewrite memcpy_self_front by (rewrite ?uint32_small; lia). cbn [bind].
      rewrite Z.sub_diag, (uint32_small 0), Z.add_0_l, (uint32_small (ptr rb)) by lia.
      cbn [ptr Z.eqb].
      match goal with |- context [read_loop _ ?b ?o _ _] => set (rb1 := b); set (out1 := o) end.
      destruct (read_loop_fit fits rest rb1 out1 (ptr rb) max_len) as [out' Hrun];
        try assumption; try lia.
      { subst out1. change (Z.to_nat 0) with 0%nat. cbn [skipn].
        rewrite length_app, length_firstn, length_skipn. lia. }
      rewrite Hrun. cbn [bind]. eexists _, _, _. split; [reflexivity|]. fields.
      now split.
    - cbn [bind]. assert (H0 : ptr rb = 0) by lia. rewrite H0 in *. cbn [Z.eqb].
      destruct (read_loop_fit fits rest rb out 0 max_len) as [out' Hrun];
        try assumption; try lia.
      rewrite Hrun. cbn [bind]. eexists _, _, _. split; [reflexivity|]. fields.
      now split. }
  destruct Hstate as (st' & out' & n & Hrun & Hrest & Hptr').
  rewrite Hrun0 in Hrun. injection Hrun as <- <- <-.
  assert (Hlo : Z.of_nat (length (owed st))
                = max_len + Z.of_nat (length (serialize rest))).
  { unfold owed. rewrite Hshape. unfold serialize.
    rewrite map_app, concat_app, !length_app, length_firstn. fold (serialize fits).
    fold (serialize rest). lia. }
  assert (Hnm : n0 = max_len) by lia. clear Hn0. subst n0.
  exists st0, out0. splits; try assumption.
  rewrite Hout0. rewrite firstn_prefix by (rewrite length_firstn; lia).
  unfold owed. rewrite Hshape. unfold serialize. rewrite map_app, concat_app, app_assoc.
  apply firstn_prefix. rewrite length_app, length_firstn. fold (serialize fits). lia.
Qed.

End Engine.

(** ** The length-class code and the table *)






(** ** Board detection *)

Ltac probe_cases pin_level :=
  repeat match goal with
         | |- context [pin_level ?l ?port ?pin ?mode] =>
           let H := fresh "Hpin" in
           destruct (pin_level l port pin mode) eqn:H; cbn [negb]
         end.

Ltac snoc_witness :=
  lazymatch goal with
  | |- [?z] = ?ops ++ [?z] => unify ops (@nil (@gpio_op _)); reflexivity
  | |- ?x :: ?rest = ?ops ++ ?z =>
    let l := fresh "l" in
    evar (l : list (@gpio_op _));
    unify ops (x :: l); subst l; cbn [app]; f_equal; snoc_witness
  end.

Ltac log_shape :=
  apply (f_equal (app _)); do 3 (apply (f_equal (cons _))); snoc_witness.

(** X12. Board detection selects the DOS board or nothing: [hw_type] and
    [current_board] become DOS when B1 and then B7 read low under a pull-up,
    and keep their values in every other case, whatever the other pins
    read. *)
Theorem detect_board_type_selects_dos_only {P : Pins}
  (pin_level : list gpio_op -> gpio_port -> Z -> pull_mode -> bool) (st : board_state) :
  let log0 := gpio_log st ++ [SetOutput GPIOC 14 true; SetOutput GPIOC 5 true] in
  let b1 := pin_level log0 GPIOB 1 PULL_UP in
  let b7 := pin_level (log0 ++ [DetectWithPull GPIOB 1 PULL_UP]) GPIOB 7 PULL_UP in
  let st' := detect_board_type pin_level st in
  (b1 = false /\ b7 = false ->
   hw_type st' = HW_TYPE_DOS /\ current_board st' = board_dos)
  /\ (b1 = true \/ b7 = true ->
      hw_type st' = hw_type st /\ current_board st' = current_board st).
Proof.
  cbn zeta. unfold detect_board_type, or_else, detect_with_pull, set_gpio_output,
    set_gpio_alternate. cbn [hw_type current_board gpio_log].
  rewrite <- !app_assoc. cbn [app].
  destruct (pin_level (gpio_log st ++ [SetOutput GPIOC 14 true; SetOutput GPIOC 5 true])
              GPIOB 1 PULL_UP) eqn:Hb1; cbn [negb].
  - split; [intros [? _]; discriminate | intros _].
    probe_cases pin_level; cbn [hw_type current_board]; now split.
  - rewrite <- !app_assoc. cbn [app hw_type current_board gpio_log].
    destruct (pin_level (gpio_log st ++ [SetOutput GPIOC 14 true; SetOutput GPIOC 5 true;
                                         DetectWithPull GPIOB 1 PULL_UP])
                GPIOB 7 PULL_UP) eqn:Hb7; cbn [negb].
    + split; [intros [_ ?]; discriminate | intros _].
      probe_cases pin_level; cbn [hw_type current_board]; now split.
    + split; [intros _; cbn [hw_type current_board]; now split|].
      intros [?|?]; discriminate.
Qed.

(** X13. The pin protocol of board detection: it drives C14 and C5 high,
    probes B1 first, makes between one and eight probes and nothing else, and
    always ends by returning A13 to its alternate function; B7 is probed only
    after B1 read low, and when B7 reads low as well no other pin is
    probed. *)
Theorem detect_board_type_pin_protocol {P : Pins}
  (pin_level : list gpio_op -> gpio_port -> Z -> pull_mode -> bool) (st : board_state) :
  let log0 := gpio_log st ++ [SetOutput GPIOC 14 true; SetOutput GPIOC 5 true] in
  let b1 := pin_level log0 GPIOB 1 PULL_UP in
  let b7 := pin_level (log0 ++ [DetectWithPull GPIOB 1 PULL_UP]) GPIOB 7 PULL_UP in
  exists probes,
    gpio_log (detect_board_type pin_level st)
    = gpio_log st
      ++ SetOutput GPIOC 14 true :: SetOutput GPIOC 5 true
         :: DetectWithPull GPIOB 1 PULL_UP :: probes
         ++ [SetAlternate GPIOA 13 GPIO_AF0_SWJ]
    /\ forallb is_probe probes = true
    /\ (length probes <= 7)%nat
    /\ (b1 = true -> ~ In (DetectWithPull GPIOB 7 PULL_UP) probes)
    /\ (b1 = false -> b7 = false -> probes = [DetectWithPull GPIOB 7 PULL_UP]).
Proof.
  cbn zeta. unfold detect_board_type, or_else, detect_with_pull, set_gpio_output,
    set_gpio_alternate. cbn [hw_type current_board gpio_log].
  rewrite <- !app_assoc. cbn [app].
  destruct (pin_level (gpio_log st ++ [SetOutput GPIOC 14 true; SetOutput GPIOC 5 true])
              GPIOB 1 PULL_UP) eqn:Hb1; cbn [negb].
  - probe_cases pin_level; cbn [gpio_log]; rewrite <- ?app_assoc; cbn [app];
      (eexists; split; [log_shape |];
       cbn [forallb is_probe andb length In]; repeat split; try lia; try discriminate;
       intros _ Hin; repeat (destruct Hin as [Hin|Hin]; [discriminate|]); exact Hin).
  - rewrite <- !app_assoc. cbn [app hw_type current_board gpio_log].
    destruct (pin_level (gpio_log st ++ [SetOutput GPIOC 14 true; SetOutput GPIOC 5 true;
                                         DetectWithPull GPIOB 1 PULL_UP])
                GPIOB 7 PULL_UP) eqn:Hb7; cbn [negb].
    + probe_cases pin_level; cbn [gpio_log]; rewrite <- ?app_assoc; cbn [app];
        (eexists; split; [log_shape |];
         cbn [forallb is_probe andb length]; repeat split; try lia; try discriminate).
    + cbn [gpio_log]. rewrite <- ?app_assoc. cbn [app].
      exists [DetectWithPull GPIOB 7 PULL_UP]. cbn [app forallb is_probe andb length].
      repeat split; try lia; try discriminate.
Qed.

(** ** The engine on one configuration *)

Ltac fd_state_ok :=
  unfold state_ok, asm_ok, read_inv, write_inv, queue_ok, ASM_BUFFER_SIZE;
  cbn; repeat split; try lia; repeat constructor.

Example write_two_frames_in_one_call :
  option_map (fun st => (sent st, ptr (can_write_buffer st)))
    (match comms_can_write (fd_state [] 100) stream_ab 26 with
     | Ok st => Some st | Fault _ => None end)
  = Some ([submitted frame_a;
           submitted frame_b], 0).
Proof. vm_compute. reflexivity. Qed.

(** A frame of 70 bytes written one byte per call is submitted once, by the
    last call. *)
Example maximal_split :
  let frame := xf0 :: repeat x5a 69 in
  let calls := map (fun b => [b]) frame in
  (match write_all (fd_state [] 100) (removelast calls) with
   | Ok st => Some (sent st, ptr (can_write_buffer st), tail_size (can_write_buffer st))
   | Fault _ => None end) = Some ([], 69, 1)
  /\ (match write_all (fd_state [] 100) calls with
      | Ok st => Some (sent st, ptr (can_write_buffer st))
      | Fault _ => None end)
     = Some ([submitted frame], 0).
Proof. vm_compute. split; reflexivity. Qed.

(** With a table entry beyond the envelope the write buffer is overrun. *)
Example oversized_table_overruns :
  comms_can_write
    (@mk_comms oversized_collaborators
       (mk_asm_buffer 0 0 (repeat x00 72)) (mk_asm_buffer 0 0 (repeat x00 72))
       [] 100 [] [])
    (xf0 :: repeat x5a 79) 80
  = Fault BufferOverrun.
Proof. vm_compute. reflexivity. Qed.

Lemma write_reassembly_witness :
  exists st',
    write_all (comms_can_reset (fd_state [] 100)) chunks_ab = Ok st'
    /\ sent st' = sent (fd_state [] 100) ++ map submitted [frame_a; frame_b]
    /\ map (fun s => wire (E := fd_collaborators) (fst s))
           (map submitted [frame_a; frame_b])
       = [frame_a; frame_b]
    /\ ptr (can_write_buffer st') = 0.
Proof.
  apply (write_reassembly (E := fd_collaborators)).
  - reflexivity.
  - repeat constructor; lia.
  - reflexivity.
  - repeat constructor.
  - reflexivity.
  - unfold INT_MAX. repeat constructor; cbn; lia.
Defined.

Lemma read_chunking_invariance_witness :
  exists st' chunks,
    read_all (fd_state [packet_of frame_a; packet_of frame_b] 0)
             [repeat x00 5; repeat x00 1; repeat x00 64] = Ok (st', chunks)
    /\ concat chunks = serialize (E := fd_collaborators) [packet_of frame_a; packet_of frame_b]
    /\ length chunks = 3%nat
    /\ owed st' = [].
Proof.
  apply (read_chunking_invariance (E := fd_collaborators)).
  - reflexivity.
  - repeat constructor; lia.
  - unfold asm_ok, ASM_BUFFER_SIZE. cbn. lia.
  - reflexivity.
  - repeat constructor.
  - unfold INT_MAX. repeat constructor; cbn; lia.
  - vm_compute. discriminate.
Defined.

Lemma write_invariant_preserved_witness :
  exists st',
    run (fd_state [] 100)
        [Write (firstn 3 frame_a) 3; Read (repeat x00 8) 8; Reset;
         Write (firstn 10 stream_ab) 10] = Ok st'
    /\ state_ok st'
    /\ (0 < ptr (can_write_buffer st') ->
        ptr (can_write_buffer st') + tail_size (can_write_buffer st')
        = CANPACKET_HEAD_SIZE
          + payload_len (E := fd_collaborators) (byte0 (data (can_write_buffer st')))).
Proof.
  apply (write_invariant_preserved (E := fd_collaborators)).
  - reflexivity.
  - repeat constructor; lia.
  - fd_state_ok.
  - unfold INT_MAX. repeat constructor; cbn; lia.
Defined.

Lemma buffers_never_overrun_witness :
  exists st',
    run (fd_state [packet_of frame_b] 100)
        [Read (repeat x00 7) 7; Write (firstn 20 stream_ab) 20;
         Receive (packet_of frame_a); Read (repeat x00 64) 64;
         Reset; Write (skipn 8 stream_ab) 18] = Ok st'
    /\ Z.of_nat (length (data (can_read_buffer st'))) = ASM_BUFFER_SIZE
    /\ Z.of_nat (length (data (can_write_buffer st'))) = ASM_BUFFER_SIZE
    /\ 0 <= ptr (can_read_buffer st') <= ASM_BUFFER_SIZE
    /\ 0 <= ptr (can_write_buffer st') <= ASM_BUFFER_SIZE.
Proof.
  apply (buffers_never_overrun (E := fd_collaborators)).
  - reflexivity.
  - repeat constructor; lia.
  - fd_state_ok.
  - unfold INT_MAX. repeat constructor; cbn; lia.
Defined.

Lemma read_capacity_and_partial_frame_witness :
  exists st' out' n,
    comms_can_read (fd_state [packet_of frame_a; packet_of frame_b] 0)
                   (repeat xff 12) 10 = Ok (st', out', n)
    /\ n = 10
    /\ skipn 10 out' = [xff; xff]
    /\ firstn 10 out' = frame_a ++ firstn 2 frame_b
    /\ ptr (can_read_buffer st') = 16
    /\ firstn 16 (data (can_read_buffer st')) = skipn 2 frame_b
    /\ can_rx_q st' = [].
Proof.
  destruct (read_capacity_and_partial_frame (E := fd_collaborators))
    with (st := fd_state [packet_of frame_a; packet_of frame_b] 0)
         (out := repeat xff 12) (max_len := 10)
    as (st' & out' & n & Hrun & Hn & Hlen & Hskip & Hfirst & Hcut).
  - reflexivity.
  - repeat constructor; lia.
  - unfold asm_ok, ASM_BUFFER_SIZE. cbn. lia.
  - unfold read_inv, ASM_BUFFER_SIZE. cbn. lia.
  - repeat constructor.
  - unfold INT_MAX. lia.
  - cbn. lia.
  - destruct (Hcut [packet_of frame_a] (packet_of frame_b) [] eq_refl)
      as (Hn' & Hf & Hp & Hk & Hq); [vm_compute; split; reflexivity|].
    exists st', out', n. subst n.
    repeat split; [exact Hrun | exact Hskip | exact Hf | exact Hp | | exact Hq].
    rewrite Hp in Hk. exact Hk.
Defined.

Lemma reset_idempotent_witness :
  comms_can_reset (comms_can_reset
    (set_write_buffer (fd_state [] 0) (mk_asm_buffer 3 5 (repeat x22 72))))
  = comms_can_reset
      (set_write_buffer (fd_state [] 0) (mk_asm_buffer 3 5 (repeat x22 72)))
  /\ comms_can_reset (fd_state [] 0) = fd_state [] 0.
Proof.
  split.
  - apply (reset_idempotent
             (set_write_buffer (fd_state [] 0) (mk_asm_buffer 3 5 (repeat x22 72)))).
  - apply (reset_idempotent (fd_state [] 0)); reflexivity.
Defined.

Lemma read_starvation_witness :
  comms_can_read (fd_state [] 0) (repeat xff 64) 64
  = Ok (fd_state [] 0, repeat xff 64, 0).
Proof.
  apply (read_starvation (E := fd_collaborators)); reflexivity.
Defined.

Lemma admission_check_after_write_witness :
  exists st' fs r new,
    comms_can_write (fd_state [] 52) (firstn 20 stream_ab) 20 = Ok st'
    /\ firstn (Z.to_nat (ptr (can_write_buffer (fd_state [] 52))))
              (data (can_write_buffer (fd_state [] 52))) ++ firstn 20 stream_ab
       = concat fs ++ r
    /\ holds_partial (E := fd_collaborators) (can_write_buffer st') r
    /\ sent st' = sent (fd_state [] 52) ++ map submitted fs
    /\ can_tx_q st' = pool_after (E := fd_collaborators) fs (can_tx_q (fd_state [] 52))
    /\ resumed st' = resumed (fd_state [] 52) ++ new
    /\ (In USB new <->
        MAX_CAN_MSGS_PER_USB_BULK_TRANSFER (Collaborators := fd_collaborators)
        <= free_slots (can_tx_q st'))
    /\ (In SPI new <->
        MAX_CAN_MSGS_PER_SPI_BULK_TRANSFER (Collaborators := fd_collaborators)
        <= free_slots (can_tx_q st'))
    /\ new = signals (E := fd_collaborators) (can_tx_q st').
Proof.
  apply (admission_check_after_write (E := fd_collaborators)
           eq_refl
           ltac:(repeat constructor; lia)
           (fd_state [] 52) (firstn 20 stream_ab)).
  - unfold asm_ok, ASM_BUFFER_SIZE. cbn. lia.
  - unfold write_inv. cbn. lia.
  - unfold INT_MAX. cbn. lia.
Defined.

Lemma partial_frame_length_known_witness :
  exists st' fs r,
    write_all (comms_can_reset (fd_state [] 100)) (firstn 3 chunks_ab) = Ok st'
    /\ concat (firstn 3 chunks_ab) = concat fs ++ r
    /\ Forall (wire_frame (E := fd_collaborators)) fs
    /\ sent st' = sent (fd_state [] 100) ++ map submitted fs
    /\ firstn (Z.to_nat (ptr (can_write_buffer st'))) (data (can_write_buffer st')) = r
    /\ (0 < ptr (can_write_buffer st') ->
        exists b r',
          r = b :: r'
          /\ nth_error (data (can_write_buffer st')) 0 = Some b
          /\ 1 <= tail_size (can_write_buffer st')
          /\ ptr (can_write_buffer st') + tail_size (can_write_buffer st')
             = CANPACKET_HEAD_SIZE + payload_len (E := fd_collaborators) b).
Proof.
  apply (partial_frame_length_known (E := fd_collaborators)).
  - reflexivity.
  - repeat constructor; lia.
  - reflexivity.
  - unfold INT_MAX. repeat constructor; cbn; lia.
Defined.

(** ** The further properties on one configuration *)

Ltac fd_asm_ok := unfold asm_ok, read_inv, write_inv, assembling, ASM_BUFFER_SIZE; cbn; lia.

Lemma read_zero_capacity_witness :
  comms_can_read (fd_busy_state [packet_of frame_a] 0) (repeat xff 4) 0
  = Ok (fd_busy_state [packet_of frame_a] 0, repeat xff 4, 0).
Proof.
  apply (read_zero_capacity (E := fd_collaborators)); fd_asm_ok.
Defined.

Lemma read_full_unless_drained_witness :
  exists st' out' n,
    comms_can_read (fd_busy_state [packet_of frame_a] 0) (repeat xff 64) 64
    = Ok (st', out', n)
    /\ n = Z.min 64 (Z.of_nat (length (owed (fd_busy_state [packet_of frame_a] 0))))
    /\ (n < 64 ->
        can_rx_q st' = [] /\ ptr (can_read_buffer st') = 0
        /\ firstn (Z.to_nat n) out' = owed (fd_busy_state [packet_of frame_a] 0)).
Proof.
  apply (read_full_unless_drained (E := fd_collaborators)).
  - reflexivity.
  - repeat constructor; lia.
  - fd_asm_ok.
  - fd_asm_ok.
  - repeat constructor.
  - unfold INT_MAX. lia.
  - cbn. lia.
Defined.

Lemma reads_deliver_in_arrival_order_witness :
  exists st' bytes,
    run_out (fd_busy_state [] 100)
      [Receive (packet_of frame_a); Read (repeat xff 7) 7;
       Write (firstn 20 stream_ab) 20; Receive (packet_of frame_b);
       Read (repeat xff 64) 64] = Ok (st', bytes)
    /\ state_ok st'
    /\ bytes ++ owed st'
       = owed (fd_busy_state [] 100)
         ++ serialize (E := fd_collaborators) [packet_of frame_a; packet_of frame_b].
Proof.
  apply (reads_deliver_in_arrival_order (E := fd_collaborators)).
  - reflexivity.
  - repeat constructor; lia.
  - unfold state_ok, asm_ok, read_inv, write_inv, queue_ok, ASM_BUFFER_SIZE.
    cbn. repeat split; try lia. constructor.
  - unfold INT_MAX. repeat constructor; cbn; lia.
  - repeat constructor.
Defined.


Lemma writes_depend_on_stream_only_witness :
  exists st1' st2' fs,
    write_all (fd_busy_state [] 100) chunks_ab = Ok st1'
    /\ write_all (fd_state [] 7) [[x22; x01; x02] ++ stream_ab] = Ok st2'
    /\ sent st1' = sent (fd_busy_state [] 100) ++ map submitted fs
    /\ sent st2' = sent (fd_state [] 7) ++ map submitted fs
    /\ buffered (can_write_buffer st1') = buffered (can_write_buffer st2')
    /\ ptr (can_write_buffer st1') = ptr (can_write_buffer st2')
    /\ (0 < ptr (can_write_buffer st1') ->
        tail_size (can_write_buffer st1') = tail_size (can_write_buffer st2')).
Proof.
  apply (writes_depend_on_stream_only (E := fd_collaborators)).
  - reflexivity.
  - repeat constructor; lia.
  - fd_asm_ok.
  - unfold assembling. intros _. cbn. split; [lia | reflexivity].
  - fd_asm_ok.
  - unfold assembling. cbn. lia.
  - unfold INT_MAX. repeat constructor; cbn; lia.
  - unfold INT_MAX. repeat constructor; cbn; lia.
  - reflexivity.
Defined.

Lemma write_nothing_witness :
  comms_can_write (fd_busy_state [] 100) [] 0
  = Ok (refresh_can_tx_slots_available (fd_busy_state [] 100)).
Proof.
  apply (write_nothing (E := fd_collaborators)).
  - reflexivity.
  - repeat constructor; lia.
  - fd_asm_ok.
  - unfold assembling. intros _. cbn. split; [lia | reflexivity].
Defined.

Lemma submitted_packets_are_clean_witness :
  exists st' new,
    comms_can_write (fd_busy_state [] 100) (skipn 3 stream_ab) 23 = Ok st'
    /\ sent st' = sent (fd_busy_state [] 100) ++ new
    /\ Forall (fun s =>
          Z.of_nat (length (fst s)) = CANPACKET_SIZE
          /\ skipn (Z.to_nat (frame_len (E := fd_collaborators) (byte0 (fst s)))) (fst s)
             = repeat x00
                 (Z.to_nat (CANPACKET_SIZE
                            - frame_len (E := fd_collaborators) (byte0 (fst s))))
          /\ snd s = Z.land (Z.shiftr (byte_val (byte0 (fst s))) 1) 7
          /\ 0 <= snd s <= 7) new.
Proof.
  apply (submitted_packets_are_clean (E := fd_collaborators)
           eq_refl ltac:(repeat constructor; lia)
           (fd_busy_state [] 100) (skipn 3 stream_ab)).
  - fd_asm_ok.
  - unfold write_inv. intros _. reflexivity.
  - unfold INT_MAX. cbn. lia.
Defined.

Lemma submissions_bounded_witness :
  exists st',
    comms_can_write (fd_busy_state [] 100) (skipn 3 stream_ab) 23 = Ok st'
    /\ (length (sent (fd_busy_state [] 100)) <= length (sent st'))%nat
    /\ CANPACKET_HEAD_SIZE
       * Z.of_nat (length (sent st') - length (sent (fd_busy_state [] 100)))
       <= ptr (can_write_buffer (fd_busy_state [] 100)) + 23.
Proof.
  apply (submissions_bounded (E := fd_collaborators)
           eq_refl ltac:(repeat constructor; lia)
           (fd_busy_state [] 100) (skipn 3 stream_ab)).
  - fd_asm_ok.
  - unfold write_inv. intros _. reflexivity.
  - unfold INT_MAX. cbn. lia.
Defined.

Lemma write_completes_frame_witness :
  exists st',
    comms_can_write (fd_busy_state [] 100) (skipn 3 frame_a) 5 = Ok st'
    /\ sent st' = sent (fd_busy_state [] 100) ++ [submitted frame_a]
    /\ ptr (can_write_buffer st') = 0
    /\ tail_size (can_write_buffer st') = 0.
Proof.
  apply (write_completes_frame (E := fd_collaborators)
           eq_refl ltac:(repeat constructor; lia)
           (fd_busy_state [] 100) (skipn 3 frame_a)).
  - fd_asm_ok.
  - unfold assembling. intros _. cbn. split; [lia | reflexivity].
  - cbn. lia.
  - reflexivity.
Defined.

Lemma read_then_write_round_trip_witness :
  exists st' chunks peer',
    read_all (fd_state [packet_of frame_a; packet_of frame_b] 0)
             [repeat x00 5; repeat x00 1; repeat x00 64] = Ok (st', chunks)
    /\ write_all (comms_can_reset (fd_busy_state [] 100)) chunks = Ok peer'
    /\ sent peer'
       = sent (fd_busy_state [] 100)
         ++ map (fun p => submitted (wire (E := fd_collaborators) p))
                [packet_of frame_a; packet_of frame_b]
    /\ map (fun s => wire (E := fd_collaborators) (fst s))
           (map (fun p => submitted (wire (E := fd_collaborators) p))
                [packet_of frame_a; packet_of frame_b])
       = map (wire (E := fd_collaborators)) [packet_of frame_a; packet_of frame_b]
    /\ ptr (can_write_buffer peer') = 0.
Proof.
  apply (read_then_write_round_trip (E := fd_collaborators)).
  - reflexivity.
  - repeat constructor; lia.
  - fd_asm_ok.
  - reflexivity.
  - repeat constructor.
  - unfold INT_MAX. repeat constructor; cbn; lia.
  - vm_compute. discriminate.
  - reflexivity.
Defined.

Lemma read_exact_fit_witness :
  exists st' out',
    comms_can_read (fd_busy_state [packet_of frame_a; packet_of frame_b] 0)
                   (repeat xff 13) 13 = Ok (st', out', 13)
    /\ can_rx_q st' = [packet_of frame_b]
    /\ ptr (can_read_buffer st') = 0
    /\ firstn 13 out' = [xa3; xa4; xa5; xa6; xa7] ++ frame_a.
Proof.
  apply (read_exact_fit (E := fd_collaborators)
           eq_refl ltac:(repeat constructor; lia)
           (fd_busy_state [packet_of frame_a; packet_of frame_b] 0)
           (repeat xff 13) 13 [packet_of frame_a] [packet_of frame_b]).
  - fd_asm_ok.
  - fd_asm_ok.
  - repeat constructor.
  - unfold INT_MAX. lia.
  - cbn. lia.
  - reflexivity.
  - reflexivity.
Defined.
